(** * The chat endpoint: request validation, prompt assembly and stream relay

    A shallow embedding of the [POST] handler of the chat route.  The handler
    parses a JSON body, validates its [messages] field, assembles one prompt
    string, opens the agent's event iterator and relays its events to the
    browser as server-sent frames, recording breadcrumbs on the way.

    Conventions of the embedding.
    - A JavaScript string is a [string] holding its UTF-8 bytes, so that
      [TextEncoder.encode] is the identity.
    - A JavaScript number is a binary64 [float].
    - [undefined] is [None] in [option json].
    - A [throw] is the left injection of a sum; state changes made before a
      [throw] are kept, as in JavaScript.
    - Values fixed by the runtime and not by the program text (the random
      request id, clock readings and the durations computed from them, the
      length of the last message in UTF-16 units, the working directory) are
      left out of breadcrumb data and query options; [Sentry.setContext],
      which stores the request id only, is left out with them.
    - The agent's iteration is a finite list of events followed by its
      ending, exhaustion or a throw; an iteration that never ends has no
      final stream and is not described.
    - The response carries the stream as the finished run of its [start]
      method.  The relay's breadcrumbs are kept apart from the handler's,
      since the two interleave as the scheduler decides. *)

From Stdlib Require Import String Ascii List Bool Arith ZArith Lia Floats.
Import ListNotations.
Local Open Scope string_scope.

Set Implicit Arguments.
Set Warnings "-register-all".

(** ** Characters and strings *)

Definition dquote : string := String "034"%char EmptyString.
Definition newline : string := String "010"%char EmptyString.
Definition blank_line : string := newline ++ newline.

(** [Array.prototype.join] on an array of strings. *)
Definition join (sep : string) (parts : list string) : string :=
  String.concat sep parts.

(** ** Thrown values and computations that may throw *)

(** What a [catch] clause receives: an [Error] instance with its [name] and
    [message], or some other value. *)
Inductive Thrown : Type :=
| JsError (name message : string)
| NonError.

(** [error instanceof Error ? error.name : 'Unknown'] *)
Definition error_name (e : Thrown) : string :=
  match e with JsError n _ => n | NonError => "Unknown" end.

(** [error instanceof Error ? error.message : 'Unknown error'] *)
Definition error_message (e : Thrown) : string :=
  match e with JsError _ m => m | NonError => "Unknown error" end.

(** What the JavaScript engine supplies: the decimal rendering of numbers and
    the wording of the [TypeError]s it raises itself. *)
Record Engine : Type := {
  Number_toString : float -> string;
  TypeError_text : string -> string
}.

Definition Exc (A : Type) : Type := (Thrown + A)%type.

Definition ebind {A B} (m : Exc A) (k : A -> Exc B) : Exc B :=
  match m with inl e => inl e | inr a => k a end.

(** State with exceptions: the state reached when the exception is thrown is
    kept. *)
Definition M (S A : Type) : Type := S -> Exc A * S.

Definition ret {S A} (a : A) : M S A := fun s => (inr a, s).

Definition bind {S A B} (m : M S A) (k : A -> M S B) : M S B :=
  fun s => match m s with
           | (inr a, s') => k a s'
           | (inl e, s') => (inl e, s')
           end.

Definition throw {S A} (e : Thrown) : M S A := fun s => (inl e, s).

Definition try_catch {S A} (m : M S A) (handler : Thrown -> M S A) : M S A :=
  fun s => match m s with
           | (inl e, s') => handler e s'
           | (inr a, s') => (inr a, s')
           end.

Definition modify {S} (f : S -> S) : M S unit := fun s => (inr tt, f s).

Definition lift {S A} (r : Exc A) : M S A := fun s => (r, s).

Declare Scope js_scope.
Delimit Scope js_scope with js.
Notation "x <- m ;; k" := (bind m (fun x => k))
  (at level 61, m at next level, right associativity) : js_scope.
Notation "m ;; k" := (bind m (fun _ => k))
  (at level 61, right associativity) : js_scope.
Notation "x <~ m ;; k" := (ebind m (fun x => k))
  (at level 61, m at next level, right associativity) : js_scope.
Local Open Scope js_scope.

Fixpoint filterE {A} (p : A -> Exc bool) (l : list A) : Exc (list A) :=
  match l with
  | [] => inr []
  | x :: rest =>
      keep <~ p x ;;
      kept <~ filterE p rest ;;
      inr (if keep then x :: kept else kept)
  end.

Fixpoint mapE {A B} (f : A -> Exc B) (l : list A) : Exc (list B) :=
  match l with
  | [] => inr []
  | x :: rest =>
      y <~ f x ;;
      ys <~ mapE f rest ;;
      inr (y :: ys)
  end.

(** ** JSON values as [request.json()] delivers them *)

Inductive json : Type :=
| JNull
| JBool (b : bool)
| JNum (n : float)
| JStr (s : string)
| JArr (items : list json)
| JObj (fields : list (string * json)).

(** [JSON.parse] keeps the last of several members with the same key. *)
Fixpoint own_property (key : string) (fields : list (string * json)) : option json :=
  match fields with
  | [] => None
  | (k, v) :: rest =>
      match own_property key rest with
      | Some later => Some later
      | None => if k =? key then Some v else None
      end
  end.

(** ToBoolean *)
Definition truthy (v : option json) : bool :=
  match v with
  | None | Some JNull => false
  | Some (JBool b) => b
  | Some (JNum n) => negb (PrimFloat.is_zero n || PrimFloat.is_nan n)
  | Some (JStr s) => negb (s =? EmptyString)
  | Some (JArr _) | Some (JObj _) => true
  end.

Definition Array_isArray (v : option json) : bool :=
  match v with Some (JArr _) => true | _ => false end.

(** [v === s] for a string literal [s]. *)
Definition strict_eq_string (v : option json) (s : string) : bool :=
  match v with Some (JStr t) => t =? s | _ => false end.

(** [Array.prototype.pop]'s result. *)
Fixpoint pop {A} (l : list A) : option A :=
  match l with
  | [] => None
  | [x] => Some x
  | _ :: rest => pop rest
  end.

(** [Array.prototype.slice (from, upto)] with its relative indices. *)
Definition relative_index (len k : Z) : Z :=
  if (k <? 0)%Z then Z.max (len + k) 0 else Z.min k len.

Definition slice {A} (from upto : Z) (l : list A) : list A :=
  let len := Z.of_nat (length l) in
  let k := relative_index len from in
  let final := relative_index len upto in
  firstn (Z.to_nat (Z.max (final - k) 0)) (skipn (Z.to_nat k) l).

Section Values.
Context (engine : Engine).

Definition TypeError {A} (what : string) : Exc A :=
  inl (JsError "TypeError" (TypeError_text engine what)).

(** [v.key] for the keys the handler reads ([messages], [role], [content]):
    none of them is a property of a built-in prototype, so only an object
    parsed from JSON can have one; reading a property of [null] or
    [undefined] throws.  The destructuring [const { key } = v] behaves the
    same. *)
Definition get (v : option json) (key : string) : Exc (option json) :=
  match v with
  | None | Some JNull => TypeError key
  | Some (JObj fields) => inr (own_property key fields)
  | Some _ => inr None
  end.

(** [v.length] is only evaluated for its exception. *)
Definition read_length (v : option json) : Exc unit :=
  match v with
  | None | Some JNull => TypeError "length"
  | Some _ => inr tt
  end.

(** ToString, as a template literal applies it.  An array is joined with
    commas, [null] items giving the empty string; a plain object gives
    [[object Object]] unless a member named [toString] hides the inherited
    method, in which case no primitive can be obtained. *)
Fixpoint ToString_json (v : json) : Exc string :=
  match v with
  | JNull => inr "null"
  | JBool true => inr "true"
  | JBool false => inr "false"
  | JNum n => inr (Number_toString engine n)
  | JStr s => inr s
  | JArr items =>
      let item (x : json) : Exc string :=
        match x with JNull => inr EmptyString | _ => ToString_json x end in
      parts <~ (fix items_text (l : list json) : Exc (list string) :=
                  match l with
                  | [] => inr []
                  | x :: rest =>
                      y <~ item x ;;
                      ys <~ items_text rest ;;
                      inr (y :: ys)
                  end) items ;;
      inr (join "," parts)
  | JObj fields =>
      match own_property "toString" fields with
      | Some _ => TypeError "toString"
      | None => inr "[object Object]"
      end
  end.

Definition ToString (v : option json) : Exc string :=
  match v with
  | None => inr "undefined"
  | Some j => ToString_json j
  end.
End Values.

(** ** [JSON.stringify] on the flat object literals the handler serialises *)

Definition hex_digit (n : nat) : ascii :=
  nth n (list_ascii_of_string "0123456789abcdef") "0"%char.

(** QuoteJSONString, one byte at a time: the two-character escapes, a
    [\u00XX] escape for the other control characters, every other byte as it
    is. *)
Definition escape_char (c : ascii) : string :=
  let code := nat_of_ascii c in
  let backslash := String "092"%char EmptyString in
  if Nat.eqb code 8 then backslash ++ "b"
  else if Nat.eqb code 9 then backslash ++ "t"
  else if Nat.eqb code 10 then backslash ++ "n"
  else if Nat.eqb code 12 then backslash ++ "f"
  else if Nat.eqb code 13 then backslash ++ "r"
  else if Nat.eqb code 34 then backslash ++ dquote
  else if Nat.eqb code 92 then backslash ++ backslash
  else if Nat.ltb code 32 then
    backslash ++ "u00" ++ String (hex_digit (code / 16)) (String (hex_digit (code mod 16)) EmptyString)
  else String c EmptyString.

Fixpoint escape (s : string) : string :=
  match s with
  | EmptyString => EmptyString
  | String c rest => escape_char c ++ escape rest
  end.

Definition JSON_quote (s : string) : string := dquote ++ escape s ++ dquote.

Inductive scalar : Type :=
| SStr (s : string)
| SNum (n : float).

Section Serialise.
Context (engine : Engine).

(** A number that is not finite is serialised as [null]. *)
Definition JSON_stringify_scalar (v : scalar) : string :=
  match v with
  | SStr s => JSON_quote s
  | SNum n => if PrimFloat.is_finite n then Number_toString engine n else "null"
  end.

Definition JSON_stringify_object (members : list (string * scalar)) : string :=
  "{" ++ join "," (map (fun kv => JSON_quote (fst kv) ++ ":" ++ JSON_stringify_scalar (snd kv)) members) ++ "}".
End Serialise.

(** ** Telemetry *)

Inductive Level : Type := Info | Warning | Error.

Inductive DataValue : Type :=
| DStr (s : string)
| DNat (n : nat)
| DFloat (n : float).

Record Breadcrumb : Type := {
  category : string;
  message : string;
  level : Level;
  data : list (string * DataValue)
}.

(** An exception reported with [Sentry.captureException]. *)
Record Captured : Type := {
  exception : Thrown;
  tags : list (string * string);
  contexts : list (string * list (string * DataValue))
}.

Record Telemetry : Type := {
  breadcrumbs : list Breadcrumb;
  exceptions : list Captured
}.

Definition no_telemetry : Telemetry := {| breadcrumbs := []; exceptions := [] |}.

Definition record_breadcrumb (b : Breadcrumb) (t : Telemetry) : Telemetry :=
  {| breadcrumbs := breadcrumbs t ++ [b]; exceptions := exceptions t |}.

Definition record_exception (c : Captured) (t : Telemetry) : Telemetry :=
  {| breadcrumbs := breadcrumbs t; exceptions := exceptions t ++ [c] |}.

Definition Sentry_addBreadcrumb (b : Breadcrumb) : M Telemetry unit :=
  modify (record_breadcrumb b).

Definition Sentry_captureException (c : Captured) : M Telemetry unit :=
  modify (record_exception c).

(** ** The agent's event iterator *)

Inductive Delta : Type :=
| text_delta (text : string)
| other_delta.

Inductive RawEvent : Type :=
| content_block_delta (delta : option Delta)
| other_event.

Inductive ContentBlock : Type :=
| tool_use (id name : string)
| other_block.

Inductive SDKMessage : Type :=
| stream_event (event : RawEvent)
| assistant (content : option (list ContentBlock))
| tool_progress (tool_name : string) (elapsed_time_seconds : float)
| result (subtype : string)
| other_message.

(** How the iteration ends once its events are consumed. *)
Inductive Ending : Type :=
| Exhausted
| Throws (e : Thrown).

Record Upstream : Type := {
  events : list SDKMessage;
  ending : Ending
}.

(** The options object passed to [query]. *)
Record QueryCall : Type := {
  prompt : string;
  maxTurns : nat;
  tools_preset : string;
  permissionMode : string;
  allowDangerouslySkipPermissions : bool;
  includePartialMessages : bool
}.

Definition query_call (fullPrompt : string) : QueryCall := {|
  prompt := fullPrompt;
  maxTurns := 10;
  tools_preset := "claude_code";
  permissionMode := "bypassPermissions";
  allowDangerouslySkipPermissions := true;
  includePartialMessages := true
|}.

(** ** Outbound frames *)

Inductive OutboundFrame : Type :=
| text_delta_frame (text : string)
| tool_start_frame (tool : string)
| tool_progress_frame (tool : string) (elapsed : float)
| done_frame
| error_frame (message : string).

(** The object literal handed to [JSON.stringify], members in source order. *)
Definition frame_object (f : OutboundFrame) : list (string * scalar) :=
  match f with
  | text_delta_frame text => [("type", SStr "text_delta"); ("text", SStr text)]
  | tool_start_frame tool => [("type", SStr "tool_start"); ("tool", SStr tool)]
  | tool_progress_frame tool elapsed =>
      [("type", SStr "tool_progress"); ("tool", SStr tool); ("elapsed", SNum elapsed)]
  | done_frame => [("type", SStr "done")]
  | error_frame message => [("type", SStr "error"); ("message", SStr message)]
  end.

(** What [controller.enqueue] is given: a serialised frame or the end marker. *)
Inductive Chunk : Type :=
| Frame (f : OutboundFrame)
| DONE_marker.

Definition wire (engine : Engine) (c : Chunk) : string :=
  match c with
  | Frame f => "data: " ++ JSON_stringify_object engine (frame_object f) ++ blank_line
  | DONE_marker => "data: [DONE]" ++ blank_line
  end.

(** ** The relay's state *)

Record Counters : Type := {
  chunkCount : nat;
  textDeltaCount : nat;
  toolsUsedCount : nat;
  parseErrorCount : nat
}.

(** The stream controller: the chunks accepted so far, whether [close] took
    effect, and how many of its methods have been called. *)
Record Controller : Type := {
  queue : list Chunk;
  closed : bool;
  calls : nat
}.

(** Which calls of the controller's methods throw, by call number, and what.
    The relay cannot tell beforehand; a consumer that went away makes every
    later call throw. *)
Definition Faults : Type := nat -> option Thrown.

Definition no_faults : Faults := fun _ => None.

Record RelayState : Type := {
  counters : Counters;
  pulled : nat;
  controller : Controller;
  sentry : Telemetry
}.

Definition initial_counters : Counters :=
  {| chunkCount := 0; textDeltaCount := 0; toolsUsedCount := 0; parseErrorCount := 0 |}.

Definition initial_state (t : Telemetry) : RelayState := {|
  counters := initial_counters;
  pulled := 0;
  controller := {| queue := []; closed := false; calls := 0 |};
  sentry := t
|}.

Definition gets {A} (f : RelayState -> A) : M RelayState A :=
  fun st => (inr (f st), st).

Definition update_counters (f : Counters -> Counters) : M RelayState unit :=
  modify (fun st => {| counters := f (counters st); pulled := pulled st;
                       controller := controller st; sentry := sentry st |}).

Definition incr_chunkCount : M RelayState unit :=
  update_counters (fun c => {| chunkCount := S (chunkCount c); textDeltaCount := textDeltaCount c;
                               toolsUsedCount := toolsUsedCount c; parseErrorCount := parseErrorCount c |}).

Definition incr_textDeltaCount : M RelayState unit :=
  update_counters (fun c => {| chunkCount := chunkCount c; textDeltaCount := S (textDeltaCount c);
                               toolsUsedCount := toolsUsedCount c; parseErrorCount := parseErrorCount c |}).

Definition incr_toolsUsedCount : M RelayState unit :=
  update_counters (fun c => {| chunkCount := chunkCount c; textDeltaCount := textDeltaCount c;
                               toolsUsedCount := S (toolsUsedCount c); parseErrorCount := parseErrorCount c |}).

Definition incr_parseErrorCount : M RelayState unit :=
  update_counters (fun c => {| chunkCount := chunkCount c; textDeltaCount := textDeltaCount c;
                               toolsUsedCount := toolsUsedCount c; parseErrorCount := S (parseErrorCount c) |}).

(** A call to Sentry from inside the relay. *)
Definition telemetry {A} (m : M Telemetry A) : M RelayState A :=
  fun st => let (r, t) := m (sentry st) in
            (r, {| counters := counters st; pulled := pulled st;
                   controller := controller st; sentry := t |}).

(** One call of a controller method: it is counted, and either throws or has
    its effect. *)
Definition controller_call (faults : Faults) (effect : Controller -> Controller)
  : M RelayState unit :=
  fun st =>
    let c := controller st in
    let counted := {| queue := queue c; closed := closed c; calls := S (calls c) |} in
    let put (c' : Controller) := {| counters := counters st; pulled := pulled st;
                                    controller := c'; sentry := sentry st |} in
    match faults (calls c) with
    | Some e => (inl e, put counted)
    | None => (inr tt, put (effect counted))
    end.

(** [controller.enqueue(encoder.encode(chunk))] *)
Definition enqueue (faults : Faults) (chunk : Chunk) : M RelayState unit :=
  controller_call faults
    (fun c => {| queue := queue c ++ [chunk]; closed := closed c; calls := calls c |}).

(** [controller.close()] *)
Definition close (faults : Faults) : M RelayState unit :=
  controller_call faults
    (fun c => {| queue := queue c; closed := true; calls := calls c |}).

(** The iterator hands over one more event. *)
Definition pull : M RelayState unit :=
  modify (fun st => {| counters := counters st; pulled := S (pulled st);
                       controller := controller st; sentry := sentry st |}).

(** [for await (const message of run) body] *)
Fixpoint for_await (body : SDKMessage -> M RelayState unit)
    (run : list SDKMessage) (final : Ending) : M RelayState unit :=
  match run with
  | [] => match final with Exhausted => ret tt | Throws e => throw e end
  | message :: rest => pull ;; body message ;; for_await body rest final
  end.

(** [for (const block of content) body] *)
Fixpoint for_of {A} (body : A -> M RelayState unit) (l : list A) : M RelayState unit :=
  match l with
  | [] => ret tt
  | x :: rest => body x ;; for_of body rest
  end.

(** The warning recorded when a text delta cannot be serialised and enqueued;
    [encodeError instanceof Error ? encodeError.message : 'Unknown']. *)
Definition encoding_warning (encodeError : Thrown) : Breadcrumb :=
  {| category := "chat.stream";
     message := "Parse error during text delta encoding";
     level := Warning;
     data := [("error_type", DStr "text_delta_encoding");
              ("error", DStr (match encodeError with
                              | JsError _ m => m
                              | NonError => "Unknown"
                              end))] |}.

(** ** The stream relay: the [start] method of the response stream *)

Section Relay.
Context (faults : Faults).

(** Streaming text deltas of partial messages.  A throw while the frame is
    serialised and enqueued is counted and logged, and goes no further. *)
Definition relay_text_delta (message : SDKMessage) : M RelayState unit :=
  match message with
  | stream_event (content_block_delta (Some (text_delta text))) =>
      incr_textDeltaCount ;;
      try_catch (enqueue faults (Frame (text_delta_frame text)))
        (fun encodeError =>
           incr_parseErrorCount ;;
           telemetry (Sentry_addBreadcrumb (encoding_warning encodeError)))
  | _ => ret tt
  end.

(** Tool start events from assistant messages. *)
Definition relay_tool_use (message : SDKMessage) : M RelayState unit :=
  match message with
  | assistant (Some content) =>
      for_of (fun block =>
                match block with
                | tool_use id name =>
                    incr_toolsUsedCount ;;
                    telemetry (Sentry_addBreadcrumb
                      {| category := "chat.tool";
                         message := "Tool started: " ++ name;
                         level := Info;
                         data := [("tool_name", DStr name); ("tool_id", DStr id)] |}) ;;
                    enqueue faults (Frame (tool_start_frame name))
                | other_block => ret tt
                end) content
  | _ => ret tt
  end.

(** Tool progress updates. *)
Definition relay_tool_progress (message : SDKMessage) : M RelayState unit :=
  match message with
  | tool_progress tool_name elapsed_time_seconds =>
      telemetry (Sentry_addBreadcrumb
        {| category := "chat.tool";
           message := "Tool progress: " ++ tool_name;
           level := Info;
           data := [("tool_name", DStr tool_name);
                    ("elapsed_seconds", DFloat elapsed_time_seconds)] |}) ;;
      enqueue faults (Frame (tool_progress_frame tool_name elapsed_time_seconds))
  | _ => ret tt
  end.

(** Completion. *)
Definition relay_success (message : SDKMessage) : M RelayState unit :=
  match message with
  | result subtype =>
      if subtype =? "success" then enqueue faults (Frame done_frame) else ret tt
  | _ => ret tt
  end.

(** A result that is not a success. *)
Definition relay_failure (message : SDKMessage) : M RelayState unit :=
  match message with
  | result subtype =>
      if negb (subtype =? "success") then
        telemetry (Sentry_addBreadcrumb
          {| category := "chat.stream";
             message := "Stream result error";
             level := Error;
             data := [("subtype", DStr subtype)] |}) ;;
        enqueue faults (Frame (error_frame "Query did not complete successfully"))
      else ret tt
  | _ => ret tt
  end.

(** The body of the [for await] loop: five independent [if] statements
    after the count of the event. *)
Definition relay_event (message : SDKMessage) : M RelayState unit :=
  incr_chunkCount ;;
  relay_text_delta message ;;
  relay_tool_use message ;;
  relay_tool_progress message ;;
  relay_success message ;;
  relay_failure message.

Definition summary_breadcrumb (c : Counters) : Breadcrumb :=
  {| category := "chat.stream";
     message := "Chat stream completed";
     level := Info;
     data := [("chunk_count", DNat (chunkCount c));
              ("text_delta_count", DNat (textDeltaCount c));
              ("tools_used_count", DNat (toolsUsedCount c));
              ("parse_error_count", DNat (parseErrorCount c))] |}.

(** The [try] block: relay every event, then the end marker, the close and
    the summary. *)
Definition relay_try (upstream : Upstream) : M RelayState unit :=
  for_await relay_event (events upstream) (ending upstream) ;;
  telemetry (Sentry_addBreadcrumb
    {| category := "chat.stream"; message := "Stream [DONE] marker sent";
       level := Info; data := [] |}) ;;
  enqueue faults DONE_marker ;;
  close faults ;;
  c <- gets counters ;;
  telemetry (Sentry_addBreadcrumb (summary_breadcrumb c)).

(** The [catch] block. *)
Definition relay_catch (error : Thrown) : M RelayState unit :=
  telemetry (Sentry_addBreadcrumb
    {| category := "chat.stream"; message := "Stream error"; level := Error;
       data := [("error_name", DStr (error_name error));
                ("error_message", DStr (error_message error))] |}) ;;
  c <- gets counters ;;
  telemetry (Sentry_captureException
    {| exception := error;
       tags := [("error_location", "stream_processing")];
       contexts := [("stream", [("chunk_count", DNat (chunkCount c));
                                ("text_delta_count", DNat (textDeltaCount c));
                                ("tools_used_count", DNat (toolsUsedCount c))])] |}) ;;
  enqueue faults (Frame (error_frame "Stream error occurred")) ;;
  close faults.

(** [async start(controller)]: a left result is a rejected promise, the
    [catch] block itself having thrown. *)
Definition start (upstream : Upstream) : M RelayState unit :=
  try_catch (relay_try upstream) relay_catch.
End Relay.

(** ** The handler *)

Definition SYSTEM_PROMPT : string :=
"You are a helpful personal assistant designed to help with general research, questions, and tasks.

Your role is to:
- Answer questions on any topic accurately and thoroughly
- Help with research by searching the web for current information
- Assist with writing, editing, and brainstorming
- Provide explanations and summaries of complex topics
- Help solve problems and think through decisions

Guidelines:
- Be friendly, clear, and conversational
- Use web search when you need current information, facts you're unsure about, or real-time data
- Keep responses concise but complete - expand when the topic warrants depth
- Use markdown formatting when it helps readability (bullet points, code blocks, etc.)
- Be honest when you don't know something and offer to search for answers".

Inductive ResponseBody : Type :=
| JsonText (text : string)
| EventStream (run : Exc unit * RelayState).

Record Response : Type := {
  status : nat;
  headers : list (string * string);
  body : ResponseBody
}.

(** What one request leaves behind: the response, the telemetry recorded by
    the handler itself (the relay's is in the stream's final state), and the
    calls made to the agent's [query]. *)
Record Handled : Type := {
  response : Response;
  handler_telemetry : Telemetry;
  agent_calls : list QueryCall
}.

Section Handler.
Context (engine : Engine).

Definition json_response (code : nat) (error_text : string) : Response :=
  {| status := code;
     headers := [("Content-Type", "application/json")];
     body := JsonText (JSON_stringify_object engine [("error", SStr error_text)]) |}.

Definition stream_response (run : Exc unit * RelayState) : Response :=
  {| status := 200;
     headers := [("Content-Type", "text/event-stream");
                 ("Cache-Control", "no-cache");
                 ("Connection", "keep-alive")];
     body := EventStream run |}.

Definition validation_breadcrumb (text kind : string) : Breadcrumb :=
  {| category := "chat.validation"; message := text; level := Warning;
     data := [("error_type", DStr kind)] |}.

Definition array_items (v : option json) : list json :=
  match v with Some (JArr items) => items | _ => [] end.

(** [m => m.role === 'user'] *)
Definition is_user (m : json) : Exc bool :=
  role <~ get engine (Some m) "role" ;;
  inr (strict_eq_string role "user").

(** The template literal of the [map] callback. *)
Definition render (m : json) : Exc string :=
  role <~ get engine (Some m) "role" ;;
  content <~ get engine (Some m) "content" ;;
  text <~ ToString engine content ;;
  inr ((if strict_eq_string role "user" then "User" else "Assistant") ++ ": " ++ text).

Definition conversationContext (messages : list json) : Exc string :=
  lines <~ mapE render (slice 0 (-1) messages) ;;
  inr (join blank_line lines).

Definition fullPrompt (context : string) (lastUserMessage : option json) : Exc string :=
  content <~ get engine lastUserMessage "content" ;;
  text <~ ToString engine content ;;
  inr (if negb (context =? EmptyString)
       then SYSTEM_PROMPT ++ blank_line ++ "Previous conversation:" ++ newline ++ context
              ++ blank_line ++ "User: " ++ text
       else SYSTEM_PROMPT ++ blank_line ++ "User: " ++ text).

(** The body of the handler's [try] block. *)
Definition POST_try (request_json : Exc json) (upstream : Upstream) (faults : Faults)
  : M Telemetry (Response * list QueryCall) :=
  Sentry_addBreadcrumb
    {| category := "chat"; message := "Chat request received"; level := Info; data := [] |} ;;
  parsed <- lift request_json ;;
  messages <- lift (get engine (Some parsed) "messages") ;;
  if negb (truthy messages) || negb (Array_isArray messages) then
    Sentry_addBreadcrumb
      (validation_breadcrumb "Validation error: missing messages" "missing_messages") ;;
    ret (json_response 400 "Messages array is required", [])
  else
    users <- lift (filterE is_user (array_items messages)) ;;
    let lastUserMessage := pop users in
    if negb (truthy lastUserMessage) then
      Sentry_addBreadcrumb
        (validation_breadcrumb "Validation error: no user message" "no_user_message") ;;
      ret (json_response 400 "No user message found", [])
    else
      context <- lift (conversationContext (array_items messages)) ;;
      full <- lift (fullPrompt context lastUserMessage) ;;
      content <- lift (get engine lastUserMessage "content") ;;
      lift (read_length engine content) ;;
      Sentry_addBreadcrumb
        {| category := "chat.stream"; message := "Chat stream started"; level := Info;
           data := [("message_count", DNat (length (array_items messages)))] |} ;;
      let run := start faults upstream (initial_state no_telemetry) in
      Sentry_addBreadcrumb
        {| category := "chat"; message := "Request completed"; level := Info; data := [] |} ;;
      ret (stream_response run, [query_call full]).

(** [POST]: the [try] block, and the [catch] block that answers 500. *)
Definition POST (request_json : Exc json) (upstream : Upstream) (faults : Faults) : Handled :=
  match POST_try request_json upstream faults no_telemetry with
  | (inr (answer, called), t) =>
      {| response := answer; handler_telemetry := t; agent_calls := called |}
  | (inl error, t) =>
      let t1 := record_breadcrumb
                  {| category := "chat.api"; message := "API error"; level := Error;
                     data := [("error_name", DStr (error_name error));
                              ("error_message", DStr (error_message error))] |} t in
      let t2 := record_exception
                  {| exception := error; tags := [("error_location", "api_handler")];
                     contexts := [] |} t1 in
      {| response := json_response 500
                       "Failed to process chat request. Check server logs for details.";
         handler_telemetry := t2;
         agent_calls := [] |}
  end.
End Handler.

(** ** Notions used to state the properties *)

(** The frames the relay's rules give for one event: the text of a text
    delta, a tool start for each tool-use block of an assistant message, a
    tool progress, [done] for a successful result and [error] for any other
    result; nothing for anything else. *)
Definition frames_of (m : SDKMessage) : list OutboundFrame :=
  match m with
  | stream_event (content_block_delta (Some (text_delta text))) => [text_delta_frame text]
  | assistant (Some content) =>
      flat_map (fun block => match block with
                             | tool_use _ name => [tool_start_frame name]
                             | other_block => []
                             end) content
  | tool_progress tool_name elapsed => [tool_progress_frame tool_name elapsed]
  | result subtype =>
      if subtype =? "success" then [done_frame]
      else [error_frame "Query did not complete successfully"]
  | _ => []
  end.

(** The text-delta event, as the agent delivers it. *)
Definition text_delta_event (text : string) : SDKMessage :=
  stream_event (content_block_delta (Some (text_delta text))).

Definition is_result (m : SDKMessage) : bool :=
  match m with result _ => true | _ => false end.

(** A chunk carrying a frame of a terminal type, [done] or [error]. *)
Definition is_terminal (c : Chunk) : bool :=
  match c with
  | Frame done_frame | Frame (error_frame _) => true
  | _ => false
  end.

Definition count_terminal (q : list Chunk) : nat := length (filter is_terminal q).

Definition counters_le (a b : Counters) : Prop :=
  chunkCount a <= chunkCount b /\ textDeltaCount a <= textDeltaCount b /\
  toolsUsedCount a <= toolsUsedCount b /\ parseErrorCount a <= parseErrorCount b.

(** The declared type of a message, and when a JSON value is one. *)
Inductive Role : Type := User | Assistant.

Record MessageInput : Type := {
  role : Role;
  content : string
}.

Definition role_name (r : Role) : string :=
  match r with User => "user" | Assistant => "assistant" end.

Definition represents (j : json) (m : MessageInput) : Prop :=
  exists fields,
    j = JObj fields /\
    own_property "role" fields = Some (JStr (role_name (role m))) /\
    own_property "content" fields = Some (JStr (content m)).

Definition is_user_turn (m : MessageInput) : bool :=
  match role m with User => true | Assistant => false end.

(** The most recent user turn. *)
Definition last_user (ms : list MessageInput) : option MessageInput :=
  pop (filter is_user_turn ms).

(** One line of the transcript. *)
Definition transcript_line (m : MessageInput) : string :=
  match role m with User => "User" | Assistant => "Assistant" end ++ ": " ++ content m.

(** All messages except the last, one line each, a blank line between them. *)
Definition transcript (ms : list MessageInput) : string :=
  join blank_line (map transcript_line (removelast ms)).

(** The [messages] member of a parsed body, if there is one. *)
Definition messages_field (parsed : json) : option json :=
  match parsed with
  | JObj fields => own_property "messages" fields
  | _ => None
  end.

(** An entry of the array whose [role] is the string [user]. *)
Definition has_role_user (j : json) : bool :=
  match j with
  | JObj fields => strict_eq_string (own_property "role" fields) "user"
  | _ => false
  end.

(** The body of a JSON error response. *)
Definition error_body (text : string) : string :=
  "{" ++ dquote ++ "error" ++ dquote ++ ":" ++ dquote ++ text ++ dquote ++ "}".

(** An engine for closed examples.  None of them contains a number, and the
    wording of an engine's [TypeError] reaches telemetry only. *)
Definition example_engine : Engine :=
  {| Number_toString := fun _ => "0";
     TypeError_text := fun what => "Cannot read properties of null (reading '" ++ what ++ "')" |}.

Definition chat (r : string) (c : string) : json :=
  JObj [("role", JStr r); ("content", JStr c)].

(** From here on [++] is the concatenation of lists. *)
Local Open Scope list_scope.

(** [accepted chunks closes m]: from any state, [m] returns normally, appends
    exactly [chunks] to the queue, and closes the stream if [closes]. *)
Definition accepted (chunks : list Chunk) (closes : bool) (m : M RelayState unit) : Prop :=
  forall st,
    fst (m st) = inr tt /\
    queue (controller (snd (m st))) = queue (controller st) ++ chunks /\
    closed (controller (snd (m st))) = closes || closed (controller st).

(** [thrown e chunks m]: from any state, [m] throws [e] after appending
    exactly [chunks] to the queue, the stream left open or closed as it was. *)
Definition thrown (e : Thrown) (chunks : list Chunk) (m : M RelayState unit) : Prop :=
  forall st,
    fst (m st) = inl e /\
    queue (controller (snd (m st))) = queue (controller st) ++ chunks /\
    closed (controller (snd (m st))) = closed (controller st).

(** The chunk that ends the stream. *)
Definition last_chunk (final : Ending) : Chunk :=
  match final with
  | Exhausted => DONE_marker
  | Throws _ => Frame (error_frame "Stream error occurred")
  end.

(** The state one text-delta event leaves behind: the event and the delta are
    counted; the frame joins the queue, or, if the controller throws, the
    failure is counted and a warning is recorded instead. *)
Definition after_text_delta (faults : Faults) (text : string) (st : RelayState) : RelayState :=
  let c := counters st in
  let k := controller st in
  match faults (calls k) with
  | None =>
      {| counters := {| chunkCount := S (chunkCount c);
                        textDeltaCount := S (textDeltaCount c);
                        toolsUsedCount := toolsUsedCount c;
                        parseErrorCount := parseErrorCount c |};
         pulled := S (pulled st);
         controller := {| queue := queue k ++ [Frame (text_delta_frame text)];
                          closed := closed k; calls := S (calls k) |};
         sentry := sentry st |}
  | Some encodeError =>
      {| counters := {| chunkCount := S (chunkCount c);
                        textDeltaCount := S (textDeltaCount c);
                        toolsUsedCount := toolsUsedCount c;
                        parseErrorCount := S (parseErrorCount c) |};
         pulled := S (pulled st);
         controller := {| queue := queue k; closed := closed k; calls := S (calls k) |};
         sentry := record_breadcrumb (encoding_warning encodeError) (sentry st) |}
  end.

(** The state a successful result leaves behind when its frame is accepted. *)
Definition after_success (st : RelayState) : RelayState :=
  let c := counters st in
  let k := controller st in
  {| counters := {| chunkCount := S (chunkCount c);
                    textDeltaCount := textDeltaCount c;
                    toolsUsedCount := toolsUsedCount c;
                    parseErrorCount := parseErrorCount c |};
     pulled := S (pulled st);
     controller := {| queue := queue k ++ [Frame done_frame];
                      closed := closed k; calls := S (calls k) |};
     sentry := sentry st |}.

Definition summary_message : string := "Chat stream completed".

(** No summary breadcrumb has been recorded yet. *)
Definition unsummarised (st : RelayState) : Prop :=
  Forall (fun b => message b <> summary_message) (breadcrumbs (sentry st)).

(** What a statement other than the two counting ones at the head of the loop
    body may do to the state. *)
Definition quiet (st st' : RelayState) : Prop :=
  pulled st' = pulled st /\
  chunkCount (counters st') = chunkCount (counters st) /\
  textDeltaCount (counters st') = textDeltaCount (counters st) /\
  toolsUsedCount (counters st) <= toolsUsedCount (counters st') /\
  parseErrorCount (counters st) <= parseErrorCount (counters st') /\
  (unsummarised st -> unsummarised st').

(** What one pass through the loop body does: one more chunk counted, at
    most one more text delta. *)
Definition one_event (st st' : RelayState) : Prop :=
  pulled st' = pulled st /\
  chunkCount (counters st') = S (chunkCount (counters st)) /\
  textDeltaCount (counters st) <= textDeltaCount (counters st') <= S (textDeltaCount (counters st)) /\
  toolsUsedCount (counters st) <= toolsUsedCount (counters st') /\
  parseErrorCount (counters st) <= parseErrorCount (counters st') /\
  (unsummarised st -> unsummarised st').

(** What any stretch of a run does to the counters: none of them decreases,
    the chunk count stays equal to the number of events pulled, and the text
    delta count stays below it. *)
Definition counting (st st' : RelayState) : Prop :=
  counters_le (counters st) (counters st') /\
  (chunkCount (counters st) = pulled st -> chunkCount (counters st') = pulled st') /\
  (textDeltaCount (counters st) <= chunkCount (counters st) ->
   textDeltaCount (counters st') <= chunkCount (counters st')).

(** What a run of the loop preserves. *)
Definition steady (st st' : RelayState) : Prop :=
  counting st st' /\ (unsummarised st -> unsummarised st').

Definition always {A} (R : RelayState -> RelayState -> Prop) (m : M RelayState A) : Prop :=
  forall st, R st (snd (m st)).

(** A summary breadcrumb, once recorded, carries the counters of the final
    state. *)
Definition summarised (st : RelayState) : Prop :=
  forall b, In b (breadcrumbs (sentry st)) -> message b = summary_message ->
            b = summary_breadcrumb (counters st).

(** The prompt in words: the preamble, the transcript under its heading when
    there is one, and the most recent user turn. *)
Definition assembled (ms : list MessageInput) (lastContent : string) : string :=
  if (transcript ms =? EmptyString)%string
  then (SYSTEM_PROMPT ++ blank_line ++ "User: " ++ lastContent)%string
  else (SYSTEM_PROMPT ++ blank_line ++ "Previous conversation:" ++ newline ++ transcript ms
          ++ blank_line ++ "User: " ++ lastContent)%string.

(** An upstream run, a body and a conversation for closed examples. *)
Definition silent : Upstream := {| events := []; ending := Exhausted |}.

Definition short_answer : Upstream :=
  {| events := [text_delta_event "a"; result "success"]; ending := Exhausted |}.

Definition body_of (messages : list json) : json := JObj [("messages", JArr messages)].


Definition interrupted : list MessageInput :=
  [ {| role := User; content := "hi" |};
    {| role := Assistant; content := "hello" |} ].

Definition as_json (m : MessageInput) : json := chat (role_name (role m)) (content m).

(** ** Notions for the relay under any controller *)

(** A chunk the loop body can enqueue: any frame but an error frame with a
    message of another place. *)
Definition relayed (c : Chunk) : Prop :=
  match c with
  | Frame (error_frame text) => text = "Query did not complete successfully"%string
  | Frame _ => True
  | DONE_marker => False
  end.

(** The frame the [catch] block of [start] enqueues. *)
Definition stream_error : Chunk := Frame (error_frame "Stream error occurred").

(** [extends st st']: the queue of [st'] is the queue of [st] followed by
    chunks of the loop body, and the stream is open or closed as it was. *)
Definition extends (st st' : RelayState) : Prop :=
  closed (controller st') = closed (controller st) /\
  exists added, queue (controller st') = queue (controller st) ++ added /\ Forall relayed added.

Definition is_text_frame (c : Chunk) : bool :=
  match c with Frame (text_delta_frame _) => true | _ => false end.

(** Every text delta counted so far is on the stream or counted as a failed
    encoding. *)
Definition balanced (st : RelayState) : Prop :=
  textDeltaCount (counters st) =
  length (filter is_text_frame (queue (controller st))) + parseErrorCount (counters st).

(** What a statement that neither counts nor enqueues a text delta does. *)
Definition calm (st st' : RelayState) : Prop :=
  textDeltaCount (counters st') = textDeltaCount (counters st) /\
  parseErrorCount (counters st') = parseErrorCount (counters st) /\
  filter is_text_frame (queue (controller st')) = filter is_text_frame (queue (controller st)).

Definition keeps_balance (st st' : RelayState) : Prop := balanced st -> balanced st'.

(** What one event adds to the counters when every call is accepted. *)
Definition is_text_delta (m : SDKMessage) : bool :=
  match m with
  | stream_event (content_block_delta (Some (text_delta _))) => true
  | _ => false
  end.

Definition tool_uses (m : SDKMessage) : nat :=
  match m with
  | assistant (Some blocks) =>
      length (filter (fun b => match b with tool_use _ _ => true | other_block => false end) blocks)
  | _ => 0
  end.

Definition tally (c : Counters) (m : SDKMessage) : Counters :=
  {| chunkCount := S (chunkCount c);
     textDeltaCount := (if is_text_delta m then 1 else 0) + textDeltaCount c;
     toolsUsedCount := tool_uses m + toolsUsedCount c;
     parseErrorCount := parseErrorCount c |}.

(** A string without control characters, newlines among them. *)
Definition no_control (s : string) : bool :=
  forallb (fun c => Nat.leb 32 (nat_of_ascii c)) (list_ascii_of_string s).

(** The [content] member of an entry of the array. *)
Definition content_of (j : json) : option json :=
  match j with
  | JObj fields => own_property "content" fields
  | _ => None
  end.

(** How the handler labels an entry, and the line it makes of one whose
    content has a string conversion. *)
Definition label (j : json) : string :=
  if has_role_user j then "User"%string else "Assistant"%string.

Definition line_of (engine : Engine) (j : json) (line : string) : Prop :=
  exists text,
    ToString engine (content_of j) = inr text /\ line = (label j ++ ": " ++ text)%string.

(** A controller that refuses one call, the one numbered [n], with [e], and
    accepts every other. *)
Definition fails_at (n : nat) (e : Thrown) : Faults :=
  fun k => if Nat.eqb k n then Some e else None.

(** [granted faults n chunks closes m]: from any state from which the next
    [n] calls of the controller are accepted, [m] returns normally after
    exactly [n] calls, appends exactly [chunks] to the queue, closes the
    stream if [closes], and counts no failed encoding. *)
Definition granted (faults : Faults) (n : nat) (chunks : list Chunk) (closes : bool)
    (m : M RelayState unit) : Prop :=
  forall st,
    (forall k, calls (controller st) <= k -> k < calls (controller st) + n ->
               faults k = None) ->
    fst (m st) = inr tt /\
    queue (controller (snd (m st))) = queue (controller st) ++ chunks /\
    closed (controller (snd (m st))) = closes || closed (controller st) /\
    calls (controller (snd (m st))) = calls (controller st) + n /\
    parseErrorCount (counters (snd (m st))) = parseErrorCount (counters st).

(** ** The window manager of the browser shell

    The provider keeps a list of windows and the highest z-index handed out
    so far; each operation replaces them through React state updaters.  An
    operation is embedded as the function that applies its updaters once to
    the state at hand, and appends the breadcrumbs the updaters record; calls
    are taken one at a time, each on the state the one before it left.
    [topZIndex] starts at 100 and moves by steps of one, so it and the
    z-indices it hands out are natural numbers.

    [WindowState] is declared in [./types], which is not among the sources:
    the record below has the members the provider reads or writes, with the
    types their use shows, and [rest] stands for all the others. *)

Module WindowManager.

Section Provider.
Variable Rest : Type.

Record WindowState : Type := {
  id : string;
  title : string;
  x : float;
  y : float;
  width : float;
  height : float;
  isMinimized : bool;
  isMaximized : bool;
  isFocused : bool;
  zIndex : nat;
  rest : Rest
}.

(** [Omit<WindowState, 'zIndex' | 'isFocused'>], the argument of
    [openWindow]. *)
Record NewWindow : Type := {
  new_id : string;
  new_title : string;
  new_x : float;
  new_y : float;
  new_width : float;
  new_height : float;
  new_isMinimized : bool;
  new_isMaximized : bool;
  new_rest : Rest
}.

(** [{ ...window, zIndex, isFocused }] *)
Definition placed (window : NewWindow) (z : nat) (focused : bool) : WindowState :=
  {| id := new_id window; title := new_title window;
     x := new_x window; y := new_y window;
     width := new_width window; height := new_height window;
     isMinimized := new_isMinimized window; isMaximized := new_isMaximized window;
     isFocused := focused; zIndex := z; rest := new_rest window |}.

(** [{ ...w, isFocused }] and the other spread updates. *)
Definition with_isFocused (b : bool) (w : WindowState) : WindowState :=
  {| id := id w; title := title w; x := x w; y := y w; width := width w; height := height w;
     isMinimized := isMinimized w; isMaximized := isMaximized w;
     isFocused := b; zIndex := zIndex w; rest := rest w |}.

Definition with_isMinimized (b : bool) (w : WindowState) : WindowState :=
  {| id := id w; title := title w; x := x w; y := y w; width := width w; height := height w;
     isMinimized := b; isMaximized := isMaximized w;
     isFocused := isFocused w; zIndex := zIndex w; rest := rest w |}.

Definition with_isMaximized (b : bool) (w : WindowState) : WindowState :=
  {| id := id w; title := title w; x := x w; y := y w; width := width w; height := height w;
     isMinimized := isMinimized w; isMaximized := b;
     isFocused := isFocused w; zIndex := zIndex w; rest := rest w |}.

Definition with_zIndex (z : nat) (w : WindowState) : WindowState :=
  {| id := id w; title := title w; x := x w; y := y w; width := width w; height := height w;
     isMinimized := isMinimized w; isMaximized := isMaximized w;
     isFocused := isFocused w; zIndex := z; rest := rest w |}.

Definition with_position (px py : float) (w : WindowState) : WindowState :=
  {| id := id w; title := title w; x := px; y := py; width := width w; height := height w;
     isMinimized := isMinimized w; isMaximized := isMaximized w;
     isFocused := isFocused w; zIndex := zIndex w; rest := rest w |}.

Definition with_size (sw sh : float) (w : WindowState) : WindowState :=
  {| id := id w; title := title w; x := x w; y := y w; width := sw; height := sh;
     isMinimized := isMinimized w; isMaximized := isMaximized w;
     isFocused := isFocused w; zIndex := zIndex w; rest := rest w |}.

(** The state of the provider, and the breadcrumbs recorded so far. *)
Record Manager : Type := {
  windows : list WindowState;
  topZIndex : nat;
  log : list Breadcrumb
}.

(** [useState([])] and [useState(100)] *)
Definition initial : Manager := {| windows := []; topZIndex := 100; log := [] |}.

(** [prev.find(w => w.id === target)] *)
Definition find_window (target : string) (prev : list WindowState) : option WindowState :=
  find (fun w => id w =? target) prev.

Definition window_breadcrumb (text : string) (fields : list (string * DataValue)) : Breadcrumb :=
  {| category := "window"; message := text; level := Info; data := fields |}.

Definition openWindow (window : NewWindow) (m : Manager) : Manager :=
  let newZ := topZIndex m + 1 in
  let prev := windows m in
  match find_window (new_id window) prev with
  | Some existing =>
      if isMinimized existing then
        {| windows :=
             map (fun w => if id w =? new_id window
                           then with_zIndex newZ (with_isFocused true (with_isMinimized false w))
                           else with_isFocused false w) prev;
           topZIndex := newZ;
           log := log m ++ [window_breadcrumb "Window restored via open"
                              [("window_id", DStr (new_id window));
                               ("window_title", DStr (new_title window))]] |}
      else
        {| windows :=
             map (fun w => if id w =? new_id window
                           then with_zIndex newZ (with_isFocused true w)
                           else with_isFocused false w) prev;
           topZIndex := newZ;
           log := log m ++ [window_breadcrumb "Window focused via open"
                              [("window_id", DStr (new_id window));
                               ("window_title", DStr (new_title window))]] |}
  | None =>
      {| windows := map (with_isFocused false) prev ++ [placed window newZ true];
         topZIndex := newZ;
         log := log m ++ [window_breadcrumb "Window opened"
                            [("window_id", DStr (new_id window));
                             ("window_title", DStr (new_title window));
                             ("width", DFloat (new_width window));
                             ("height", DFloat (new_height window));
                             ("window_type", DStr (new_id window))]] |}
  end.

(** The breadcrumb of the operations that name a window by its id. *)
Definition noted (text : string) (target : string) (found : option WindowState)
    (crumbs : list Breadcrumb) : list Breadcrumb :=
  match found with
  | Some window =>
      crumbs ++ [window_breadcrumb text
                   [("window_id", DStr target); ("window_title", DStr (title window));
                    ("window_type", DStr target)]]
  | None => crumbs
  end.

Definition closeWindow (target : string) (m : Manager) : Manager :=
  let prev := windows m in
  {| windows := filter (fun w => negb (id w =? target)) prev;
     topZIndex := topZIndex m;
     log := noted "Window closed" target (find_window target prev) (log m) |}.

Definition minimizeWindow (target : string) (m : Manager) : Manager :=
  let prev := windows m in
  {| windows := map (fun w => if id w =? target
                              then with_isFocused false (with_isMinimized true w)
                              else w) prev;
     topZIndex := topZIndex m;
     log := noted "Window minimized" target (find_window target prev) (log m) |}.

Definition maximizeWindow (target : string) (m : Manager) : Manager :=
  let prev := windows m in
  {| windows := map (fun w => if id w =? target
                              then with_isMaximized (negb (isMaximized w)) w
                              else w) prev;
     topZIndex := topZIndex m;
     log := match find_window target prev with
            | Some window =>
                let action := if isMaximized window then "restore" else "maximize" in
                log m ++ [window_breadcrumb ("Window " ++ action)%string
                            [("window_id", DStr target); ("window_title", DStr (title window));
                             ("action", DStr action); ("window_type", DStr target)]]
            | None => log m
            end |}.

Definition restoreWindow (target : string) (m : Manager) : Manager :=
  let newZ := topZIndex m + 1 in
  let prev := windows m in
  {| windows := map (fun w => if id w =? target
                              then with_zIndex newZ (with_isFocused true (with_isMinimized false w))
                              else with_isFocused false w) prev;
     topZIndex := newZ;
     log := noted "Window restored" target (find_window target prev) (log m) |}.

Definition focusWindow (target : string) (m : Manager) : Manager :=
  let newZ := topZIndex m + 1 in
  let prev := windows m in
  {| windows := map (fun w => if id w =? target
                              then with_zIndex newZ (with_isFocused true w)
                              else with_isFocused false w) prev;
     topZIndex := newZ;
     log := match find_window target prev with
            | Some window =>
                if negb (isFocused window)
                then noted "Window focused" target (Some window) (log m)
                else log m
            | None => log m
            end |}.

Definition updateWindowPosition (target : string) (px py : float) (m : Manager) : Manager :=
  {| windows := map (fun w => if id w =? target then with_position px py w else w) (windows m);
     topZIndex := topZIndex m;
     log := log m |}.

Definition updateWindowSize (target : string) (sw sh : float) (m : Manager) : Manager :=
  {| windows := map (fun w => if id w =? target then with_size sw sh w else w) (windows m);
     topZIndex := topZIndex m;
     log := log m |}.

(** The calls a component can make through the context. *)
Inductive Call : Type :=
| Open (window : NewWindow)
| Close (target : string)
| Minimize (target : string)
| Maximize (target : string)
| Restore (target : string)
| Focus (target : string)
| Move (target : string) (px py : float)
| Resize (target : string) (sw sh : float).

Definition perform (m : Manager) (c : Call) : Manager :=
  match c with
  | Open window => openWindow window m
  | Close target => closeWindow target m
  | Minimize target => minimizeWindow target m
  | Maximize target => maximizeWindow target m
  | Restore target => restoreWindow target m
  | Focus target => focusWindow target m
  | Move target px py => updateWindowPosition target px py m
  | Resize target sw sh => updateWindowSize target sw sh m
  end.

(** The state after a sequence of calls on a fresh provider. *)
Definition after (calls : list Call) : Manager := fold_left perform calls initial.

(** What [focusWindow], [restoreWindow] and [openWindow] on a known id do to
    each window: [target] is raised to [z] and focused, every other window
    loses the focus; [restoring] also clears [isMinimized]. *)
Definition raised (restoring : bool) (target : string) (z : nat) (w : WindowState) : WindowState :=
  if id w =? target
  then with_zIndex z (with_isFocused true
         (if restoring then with_isMinimized false w else w))
  else with_isFocused false w.

(** The window [target] is there, focused and strictly above every other
    window, none of which is focused. *)
Definition on_top (target : string) (m : Manager) : Prop :=
  (exists w, In w (windows m) /\ id w = target) /\
  forall w, In w (windows m) ->
    (id w = target -> isFocused w = true /\ zIndex w = topZIndex m) /\
    (id w <> target -> isFocused w = false /\ zIndex w < topZIndex m).

(** What a window is apart from its place in the stack, its focus and its
    being minimized. *)
Definition particulars (w : WindowState) :=
  (id w, title w, (x w, y w), (width w, height w), isMaximized w, rest w).

(** What a window is apart from its geometry. *)
Definition standing (w : WindowState) :=
  (id w, title w, isMinimized w, isMaximized w, isFocused w, zIndex w, rest w).

(** What every reachable state satisfies. *)
Definition well_formed (m : Manager) : Prop :=
  NoDup (map id (windows m)) /\
  Forall (fun w => zIndex w <= topZIndex m) (windows m) /\
  length (filter isFocused (windows m)) <= 1 /\
  100 <= topZIndex m.

End Provider.

Arguments id {Rest} _.
Arguments title {Rest} _.
Arguments x {Rest} _.
Arguments y {Rest} _.
Arguments width {Rest} _.
Arguments height {Rest} _.
Arguments isMinimized {Rest} _.
Arguments isMaximized {Rest} _.
Arguments isFocused {Rest} _.
Arguments zIndex {Rest} _.
Arguments rest {Rest} _.
Arguments particulars {Rest} _.
Arguments Close {Rest} _.
Arguments Minimize {Rest} _.
Arguments Maximize {Rest} _.
Arguments Restore {Rest} _.
Arguments Focus {Rest} _.
Arguments Move {Rest} _ _ _.
Arguments Resize {Rest} _ _ _.
Arguments standing {Rest} _.

(** A window for closed examples. *)
Definition notes : NewWindow unit :=
  {| new_id := "notes"; new_title := "Notes"; new_x := 40; new_y := 40;
     new_width := 640; new_height := 480;
     new_isMinimized := false; new_isMaximized := false; new_rest := tt |}.

Definition chat_window : NewWindow unit :=
  {| new_id := "chat"; new_title := "Chat"; new_x := 80; new_y := 60;
     new_width := 480; new_height := 600;
     new_isMinimized := false; new_isMaximized := false; new_rest := tt |}.

End WindowManager.

(** ** The [beforeSend] hooks of the instrumentation

    A JavaScript object with string keys is the list of its members in
    insertion order.  [String.prototype.toLowerCase] is supplied by the
    engine. *)

Module Instrumentation.

Definition Obj : Type := list (string * json).

(** [delete obj[key]] *)
Definition delete (key : string) (obj : Obj) : Obj :=
  filter (fun member => negb (fst member =? key)) obj.

(** [s.includes(part)] *)
Fixpoint includes (part s : string) : bool :=
  String.prefix part s ||
  match s with
  | EmptyString => false
  | String _ rest => includes part rest
  end.

Section Hooks.
Variable Other : Type.
Variable toLowerCase : string -> string.

(** The members of a Sentry event the hooks look at: [event.request?.headers],
    [event.contexts?.request?.headers] and [event.contexts?.runtime?.env],
    each [None] when it or an object on the way to it is missing; [other]
    is everything else. *)
Record Event : Type := {
  request_headers : option Obj;
  context_headers : option Obj;
  runtime_env : option Obj;
  other : Other
}.

Definition redact_headers (headers : Obj) : Obj :=
  delete "x-api-key" (delete "authorization" headers).

Definition sensitive (key : string) : bool :=
  includes "key" (toLowerCase key) ||
  includes "token" (toLowerCase key) ||
  includes "secret" (toLowerCase key).

(** [Object.keys(env).forEach(key => { if (...) env[key] = '[REDACTED]' })] *)
Definition redact_env (env : Obj) : Obj :=
  map (fun member => if sensitive (fst member)
                     then (fst member, JStr "[REDACTED]")
                     else member) env.

(** The hook of the [nodejs] runtime. *)
Definition beforeSend_nodejs (event : Event) : Event :=
  {| request_headers := option_map redact_headers (request_headers event);
     context_headers := option_map redact_headers (context_headers event);
     runtime_env := option_map redact_env (runtime_env event);
     other := other event |}.

(** The hook of the [edge] runtime. *)
Definition beforeSend_edge (event : Event) : Event :=
  {| request_headers := option_map redact_headers (request_headers event);
     context_headers := option_map redact_headers (context_headers event);
     runtime_env := runtime_env event;
     other := other event |}.

End Hooks.

(** Lower case of the letters A to Z, which is [toLowerCase] on strings of
    ASCII characters. *)
Definition lower_ascii_char (c : ascii) : ascii :=
  let code := nat_of_ascii c in
  if Nat.leb 65 code && Nat.leb code 90 then ascii_of_nat (code + 32) else c.

Fixpoint lower_ascii (s : string) : string :=
  match s with
  | EmptyString => EmptyString
  | String c rest => String (lower_ascii_char c) (lower_ascii rest)
  end.

End Instrumentation.

(** * Properties *)

(** ** The relay with a controller that accepts every call *)

Lemma accepted_ret : accepted [] false (ret tt).
Proof. intros st. simpl. rewrite app_nil_r. auto. Qed.

Lemma accepted_bind a b ca cb (m : M RelayState unit) (k : unit -> M RelayState unit) :
  accepted a ca m -> accepted b cb (k tt) -> accepted (a ++ b) (cb || ca) (bind m k).
Proof.
  intros Hm Hk st. unfold bind.
  destruct (Hm st) as (Hr & Hq & Hc).
  destruct (m st) as [[e|[]] st1]; simpl in *; [discriminate|].
  destruct (Hk st1) as (Hr' & Hq' & Hc').
  rewrite Hr', Hq', Hc', Hq, Hc, app_assoc, orb_assoc. auto.
Qed.

Lemma accepted_try_catch chunks closes (m : M RelayState unit) handler :
  accepted chunks closes m -> accepted chunks closes (try_catch m handler).
Proof.
  intros Hm st. unfold try_catch.
  destruct (Hm st) as (Hr & Hq & Hc).
  destruct (m st) as [[e|[]] st1]; simpl in *; [discriminate|auto].
Qed.

Lemma accepted_update_counters f : accepted [] false (update_counters f).
Proof. intros st. simpl. rewrite app_nil_r. auto. Qed.

Lemma accepted_pull : accepted [] false pull.
Proof. intros st. simpl. rewrite app_nil_r. auto. Qed.

Lemma accepted_breadcrumb b : accepted [] false (telemetry (Sentry_addBreadcrumb b)).
Proof. intros st. simpl. rewrite app_nil_r. auto. Qed.

Lemma accepted_capture c : accepted [] false (telemetry (Sentry_captureException c)).
Proof. intros st. simpl. rewrite app_nil_r. auto. Qed.

Lemma accepted_enqueue chunk : accepted [chunk] false (enqueue no_faults chunk).
Proof. intros st. simpl. auto. Qed.

Lemma accepted_close : accepted [] true (close no_faults).
Proof. intros st. simpl. rewrite app_nil_r. auto. Qed.

Lemma accepted_as chunks closes chunks' closes' m :
  accepted chunks closes m -> chunks = chunks' -> closes = closes' ->
  accepted chunks' closes' m.
Proof. intros H <- <-. exact H. Qed.

Create HintDb relay.
#[local] Hint Resolve accepted_ret accepted_update_counters accepted_pull
  accepted_breadcrumb accepted_capture accepted_enqueue accepted_close
  accepted_try_catch : relay.


(** Chains the facts about the statements of a sequence. *)
Ltac accept :=
  cbv beta;
  first
    [ solve [eauto with relay]
    | eapply accepted_bind; [accept | accept] ].

Lemma tool_blocks_accepted (content : list ContentBlock) :
  accepted (map Frame (frames_of (assistant (Some content)))) false
    (relay_tool_use no_faults (assistant (Some content))).
Proof.
  induction content as [|block rest IH].
  - exact accepted_ret.
  - destruct block as [id name|]; simpl.
    + eapply accepted_as.
      * eapply accepted_bind.
        -- unfold incr_toolsUsedCount. eapply accepted_bind; [eauto with relay|].
           eapply accepted_bind; eauto with relay.
        -- exact IH.
      * reflexivity.
      * reflexivity.
    + eapply accepted_as.
      * eapply accepted_bind; [apply accepted_ret | exact IH].
      * reflexivity.
      * reflexivity.
Qed.

#[local] Hint Resolve tool_blocks_accepted : relay.

Lemma relay_event_accepted (m : SDKMessage) :
  accepted (map Frame (frames_of m)) false (relay_event no_faults m).
Proof.
  unfold relay_event, incr_chunkCount.
  destruct m as [[[[text|]|]|]|[content|]|tool_name elapsed|subtype|];
    cbn [relay_text_delta relay_tool_progress relay_success relay_failure frames_of];
    try destruct (subtype =? "success")%string; cbn [negb];
    try (progress cbn [relay_tool_use]; unfold incr_textDeltaCount);
    (eapply accepted_as; [accept | simpl; rewrite ?app_nil_r; reflexivity | reflexivity ]).
Qed.

Lemma for_await_accepted (run : list SDKMessage) :
  accepted (map Frame (flat_map frames_of run)) false
    (for_await (relay_event no_faults) run Exhausted).
Proof.
  induction run as [|m rest IH]; simpl.
  - exact accepted_ret.
  - eapply accepted_as.
    + eapply accepted_bind; [apply accepted_pull|].
      eapply accepted_bind; [apply relay_event_accepted | exact IH].
    + simpl. rewrite map_app. reflexivity.
    + reflexivity.
Qed.

Lemma accepted_gets {A} (f : RelayState -> A) chunks closes (k : A -> M RelayState unit) :
  (forall a, accepted chunks closes (k a)) -> accepted chunks closes (bind (gets f) k).
Proof. intros Hk st. exact (Hk (f st) st). Qed.

Lemma thrown_bind e chunks (m : M RelayState unit) (k : unit -> M RelayState unit) :
  thrown e chunks m -> thrown e chunks (bind m k).
Proof.
  intros Hm st. unfold bind.
  destruct (Hm st) as (Hr & Hq & Hc).
  destruct (m st) as [[e'|[]] st1]; simpl in *; [auto|discriminate].
Qed.

Lemma thrown_after e a b (m : M RelayState unit) (k : unit -> M RelayState unit) :
  accepted a false m -> thrown e b (k tt) -> thrown e (a ++ b) (bind m k).
Proof.
  intros Hm Hk st. unfold bind.
  destruct (Hm st) as (Hr & Hq & Hc).
  destruct (m st) as [[e'|[]] st1]; simpl in *; [discriminate|].
  destruct (Hk st1) as (Hr' & Hq' & Hc').
  rewrite Hr', Hq', Hc', Hq, Hc, app_assoc. auto.
Qed.

Lemma caught e a b closes (m : M RelayState unit) handler :
  thrown e a m -> accepted b closes (handler e) ->
  accepted (a ++ b) closes (try_catch m handler).
Proof.
  intros Hm Hh st. unfold try_catch.
  destruct (Hm st) as (Hr & Hq & Hc).
  destruct (m st) as [[e'|[]] st1]; simpl in *; [|discriminate].
  injection Hr as ->.
  destruct (Hh st1) as (Hr' & Hq' & Hc').
  rewrite Hr', Hq', Hc', Hq, Hc, app_assoc. auto.
Qed.

Lemma for_await_thrown (run : list SDKMessage) (e : Thrown) :
  thrown e (map Frame (flat_map frames_of run))
    (for_await (relay_event no_faults) run (Throws e)).
Proof.
  induction run as [|m rest IH]; simpl.
  - intros st. simpl. rewrite app_nil_r. auto.
  - rewrite map_app.
    change (map Frame (frames_of m) ++ map Frame (flat_map frames_of rest))
      with ([] ++ (map Frame (frames_of m) ++ map Frame (flat_map frames_of rest))).
    apply thrown_after; [apply accepted_pull|].
    apply thrown_after; [apply relay_event_accepted | exact IH].
Qed.

(** The whole stream when every call of the controller is accepted: the
    frames of the events in the order of the events, then the end marker if
    the iteration was exhausted, or one error frame if it threw; the stream
    is closed either way and [start] returns. *)
Lemma start_accepted (run : list SDKMessage) (final : Ending) :
  accepted (map Frame (flat_map frames_of run) ++ [last_chunk final]) true
    (start no_faults {| events := run; ending := final |}).
Proof.
  unfold start, relay_try, relay_catch; cbn [events ending].
  destruct final as [|e]; cbn [last_chunk].
  - apply accepted_try_catch.
    eapply accepted_as.
    + eapply accepted_bind; [apply for_await_accepted|].
      eapply accepted_bind; [apply accepted_breadcrumb|].
      eapply accepted_bind; [apply accepted_enqueue|].
      eapply accepted_bind; [apply accepted_close|].
      apply accepted_gets. intros c. apply accepted_breadcrumb.
    + simpl. reflexivity.
    + reflexivity.
  - eapply accepted_as.
    + eapply caught.
      * apply thrown_bind. apply for_await_thrown.
      * cbv beta.
        eapply accepted_bind; [apply accepted_breadcrumb|].
        apply accepted_gets. intros c.
        eapply accepted_bind; [apply accepted_capture|].
        eapply accepted_bind; [apply accepted_enqueue|].
        apply accepted_close.
    + simpl. reflexivity.
    + reflexivity.
Qed.

(** ** Counters and telemetry over a whole run, whatever the controller does *)

Lemma quiet_refl st : quiet st st.
Proof. unfold quiet. intuition lia. Qed.

Lemma quiet_trans a b c : quiet a b -> quiet b c -> quiet a c.
Proof. unfold quiet. intuition lia. Qed.

Lemma counting_refl st : counting st st.
Proof. unfold counting, counters_le. intuition lia. Qed.

Lemma counting_trans a b c : counting a b -> counting b c -> counting a c.
Proof. unfold counting, counters_le. intuition lia. Qed.

Lemma steady_refl st : steady st st.
Proof. unfold steady, counting, counters_le. intuition lia. Qed.

Lemma steady_trans a b c : steady a b -> steady b c -> steady a c.
Proof. unfold steady, counting, counters_le. intuition lia. Qed.

Lemma quiet_steady a b : quiet a b -> steady a b.
Proof. unfold quiet, steady, counting, counters_le. intuition lia. Qed.

Lemma always_weaken {A} (R R' : RelayState -> RelayState -> Prop) (m : M RelayState A) :
  (forall a b, R a b -> R' a b) -> always R m -> always R' m.
Proof. intros HR Hm st. apply HR, Hm. Qed.

Section Always.
Variable R : RelayState -> RelayState -> Prop.
Hypothesis R_refl : forall st, R st st.
Hypothesis R_trans : forall a b c, R a b -> R b c -> R a c.

Lemma always_ret {A} (a : A) : always R (ret a).
Proof. intros st. apply R_refl. Qed.

Lemma always_throw {A} (e : Thrown) : always R (@throw RelayState A e).
Proof. intros st. apply R_refl. Qed.

Lemma always_gets {A} (f : RelayState -> A) : always R (gets f).
Proof. intros st. apply R_refl. Qed.

Lemma always_bind {A B} (m : M RelayState A) (k : A -> M RelayState B) :
  always R m -> (forall a, always R (k a)) -> always R (bind m k).
Proof.
  intros Hm Hk st. unfold bind. specialize (Hm st).
  destruct (m st) as [[e|a] st1]; simpl in *; [exact Hm|].
  eapply R_trans; [exact Hm | apply Hk].
Qed.

Lemma always_try_catch {A} (m : M RelayState A) handler :
  always R m -> (forall e, always R (handler e)) -> always R (try_catch m handler).
Proof.
  intros Hm Hh st. unfold try_catch. specialize (Hm st).
  destruct (m st) as [[e|a] st1]; simpl in *; [|exact Hm].
  eapply R_trans; [exact Hm | apply Hh].
Qed.

Lemma always_for_of {A} (body : A -> M RelayState unit) (l : list A) :
  (forall x, always R (body x)) -> always R (for_of body l).
Proof.
  intros Hb. induction l as [|x rest IH]; simpl.
  - apply always_ret.
  - apply always_bind; auto.
Qed.
End Always.

Lemma unsummarised_add b st t :
  message b <> summary_message ->
  breadcrumbs t = breadcrumbs (sentry st) ++ [b] ->
  unsummarised st ->
  Forall (fun b => message b <> summary_message) (breadcrumbs t).
Proof.
  intros Hb -> Hu. apply Forall_app. split; [exact Hu | constructor; auto].
Qed.

Lemma quiet_breadcrumb b :
  message b <> summary_message -> always quiet (telemetry (Sentry_addBreadcrumb b)).
Proof.
  intros Hb st. unfold quiet, unsummarised. simpl.
  repeat split; auto. intros Hu. apply Forall_app. split; [exact Hu | constructor; auto].
Qed.

Lemma quiet_capture c : always quiet (telemetry (Sentry_captureException c)).
Proof. intros st. unfold quiet, unsummarised. simpl. repeat split; auto. Qed.

Lemma quiet_controller_call faults effect : always quiet (controller_call faults effect).
Proof.
  intros st. unfold controller_call.
  destruct (faults (calls (controller st))); unfold quiet, unsummarised; simpl; repeat split; auto.
Qed.

Lemma quiet_toolsUsed : always quiet incr_toolsUsedCount.
Proof. intros st. unfold quiet, unsummarised. simpl. repeat split; auto. Qed.

Lemma quiet_parseError : always quiet incr_parseErrorCount.
Proof. intros st. unfold quiet, unsummarised. simpl. repeat split; auto. Qed.

Lemma quiet_ret {A} (a : A) : always quiet (ret a).
Proof. apply always_ret, quiet_refl. Qed.

Lemma quiet_bind {A B} (m : M RelayState A) (k : A -> M RelayState B) :
  always quiet m -> (forall a, always quiet (k a)) -> always quiet (bind m k).
Proof. apply always_bind, quiet_trans. Qed.

Lemma quiet_try_catch {A} (m : M RelayState A) handler :
  always quiet m -> (forall e, always quiet (handler e)) ->
  always quiet (try_catch m handler).
Proof. apply always_try_catch, quiet_trans. Qed.

Lemma quiet_for_of {A} (body : A -> M RelayState unit) (l : list A) :
  (forall x, always quiet (body x)) -> always quiet (for_of body l).
Proof. apply always_for_of; [apply quiet_refl | apply quiet_trans]. Qed.

(** Walks through a sequence of statements none of which counts a chunk or a
    text delta. *)
Ltac quietly :=
  repeat first
    [ apply quiet_ret
    | apply quiet_capture
    | apply quiet_controller_call
    | apply quiet_toolsUsed
    | apply quiet_parseError
    | apply quiet_breadcrumb; simpl; discriminate
    | apply quiet_bind; [ | intros ? ]
    | apply quiet_try_catch; [ | intros ? ]
    | apply quiet_for_of; intros [? ?|] ].

Lemma quiet_tail faults (m : SDKMessage) :
  always quiet (relay_tool_use faults m ;; relay_tool_progress faults m ;;
                relay_success faults m ;; relay_failure faults m).
Proof.
  destruct m as [ev|[content|]|tool_name elapsed|subtype|];
    cbn [relay_tool_use relay_tool_progress relay_success relay_failure];
    try destruct (subtype =? "success")%string; cbn [negb];
    unfold enqueue; quietly.
Qed.

Lemma text_delta_one_event faults (m : SDKMessage) :
  always one_event (incr_chunkCount ;; relay_text_delta faults m).
Proof.
  intros st.
  destruct m as [[[[text|]|]|]|content|tool_name elapsed|subtype|];
    try (unfold one_event, unsummarised; simpl; repeat split; auto; fail).
  unfold one_event, unsummarised, relay_text_delta, incr_chunkCount, incr_textDeltaCount,
    incr_parseErrorCount, update_counters, enqueue, controller_call, try_catch, bind, modify,
    telemetry, Sentry_addBreadcrumb; simpl.
  destruct (faults (calls (controller st))) as [e|]; simpl; repeat split; auto.
  intros Hu. apply Forall_app. split; [exact Hu | constructor; auto; discriminate].
Qed.

Lemma one_event_quiet a b c : one_event a b -> quiet b c -> one_event a c.
Proof. unfold one_event, quiet. intuition lia. Qed.

(** One pass through the loop body, thrown out of or not. *)
Lemma relay_event_one_event faults (m : SDKMessage) :
  always one_event (relay_event faults m).
Proof.
  intros st. unfold relay_event.
  pose proof (text_delta_one_event faults m st) as H1.
  pose proof (quiet_tail faults m) as H2.
  unfold bind in *.
  destruct (incr_chunkCount st) as [[e|[]] s0] eqn:E0; [discriminate E0|].
  destruct (relay_text_delta faults m s0) as [[e|[]] s1]; simpl in *; [exact H1|].
  eapply one_event_quiet; [exact H1 | apply (H2 s1)].
Qed.

Lemma pull_then_one_event a b :
  one_event (snd (pull a)) b -> steady a b.
Proof. unfold one_event, steady, counting, counters_le. simpl. intuition lia. Qed.

Lemma for_await_steady faults (run : list SDKMessage) (final : Ending) :
  always steady (for_await (relay_event faults) run final).
Proof.
  induction run as [|m rest IH]; intros st.
  - destruct final; apply steady_refl.
  - cbn [for_await]. unfold bind at 1. cbn [pull modify].
    pose proof (relay_event_one_event faults m (snd (pull st))) as H1.
    apply pull_then_one_event in H1. cbn [pull modify snd] in H1.
    unfold bind.
    destruct (relay_event faults m _) as [[e|[]] s1]; simpl in *; [exact H1|].
    eapply steady_trans; [exact H1 | apply IH].
Qed.

Lemma quiet_counting a b : quiet a b -> counting a b.
Proof. intros H. apply quiet_steady in H. apply H. Qed.

Lemma steady_counting a b : steady a b -> counting a b.
Proof. intros H. apply H. Qed.

Lemma summary_counting : always counting
  (c <- gets counters ;; telemetry (Sentry_addBreadcrumb (summary_breadcrumb c))).
Proof. intros st. unfold counting, counters_le. simpl. intuition lia. Qed.

Lemma closing_quiet faults : always quiet
  (telemetry (Sentry_addBreadcrumb
     {| category := "chat.stream"; message := "Stream [DONE] marker sent";
        level := Info; data := [] |}) ;;
   enqueue faults DONE_marker ;; close faults).
Proof. unfold enqueue, close. quietly. Qed.

Lemma relay_catch_quiet faults e : always quiet (relay_catch faults e).
Proof. unfold relay_catch, enqueue, close. quietly. apply always_gets, quiet_refl. Qed.

(** The run of [start] from beginning to end. *)
Lemma counting_quietly {A} (m : M RelayState A) : always quiet m -> always counting m.
Proof. apply always_weaken, quiet_counting. Qed.

Lemma start_counting faults upstream : always counting (start faults upstream).
Proof.
  unfold start, relay_try.
  apply always_try_catch; [apply counting_trans| |].
  - apply always_bind; [apply counting_trans| |intros _].
    { eapply always_weaken; [apply steady_counting | apply for_await_steady]. }
    apply always_bind; [apply counting_trans| |intros _].
    { apply counting_quietly. quietly. }
    apply always_bind; [apply counting_trans| |intros _].
    { apply counting_quietly. unfold enqueue. quietly. }
    apply always_bind; [apply counting_trans| |intros _].
    { apply counting_quietly. unfold close. quietly. }
    apply summary_counting.
  - intros e. apply counting_quietly, relay_catch_quiet.
Qed.

Lemma unsummarised_summarised st : unsummarised st -> summarised st.
Proof.
  intros Hu b Hin Hm. unfold unsummarised in Hu. rewrite Forall_forall in Hu.
  destruct (Hu b Hin Hm).
Qed.

Lemma start_summarised faults upstream st :
  unsummarised st -> summarised (snd (start faults upstream st)).
Proof.
  intros Hu. unfold start, relay_try, try_catch.
  pose proof (for_await_steady faults (events upstream) (ending upstream) st) as [_ H1].
  specialize (H1 Hu).
  unfold bind at 1.
  destruct (for_await _ _ _ st) as [[e|[]] s1]; cbn [snd] in H1.
  - apply unsummarised_summarised. apply (relay_catch_quiet faults e s1), H1.
  - pose proof (closing_quiet faults s1) as H2.
    unfold bind in H2 |- *.
    destruct (telemetry _ s1) as [[e|[]] s2]; cbn [snd] in H2.
    + apply unsummarised_summarised. apply (relay_catch_quiet faults e s2). apply H2, H1.
    + destruct (enqueue faults DONE_marker s2) as [[e|[]] s3]; cbn [snd] in H2.
      * apply unsummarised_summarised. apply (relay_catch_quiet faults e s3). apply H2, H1.
      * destruct (close faults s3) as [[e|[]] s4]; cbn [snd] in H2.
        -- apply unsummarised_summarised. apply (relay_catch_quiet faults e s4). apply H2, H1.
        -- destruct H2 as (_ & _ & _ & _ & _ & H2). specialize (H2 H1).
           intros b Hin Hm. simpl in *.
           apply in_app_or in Hin. destruct Hin as [Hin|[<-|[]]]; [|reflexivity].
           unfold unsummarised in H2. rewrite Forall_forall in H2.
           destruct (H2 b Hin Hm).
Qed.

(** ** The handler on a body whose messages have the declared type *)

Lemma slice_all_but_last {A} (l : list A) : slice 0 (-1) l = removelast l.
Proof.
  unfold slice, relative_index. cbn [Z.ltb Z.compare].
  rewrite Z.min_l by lia. cbn [Z.to_nat skipn].
  rewrite removelast_firstn_len. f_equal. lia.
Qed.

Lemma Forall2_removelast {A B} (R : A -> B -> Prop) l l' :
  Forall2 R l l' -> Forall2 R (removelast l) (removelast l').
Proof.
  induction 1 as [|x y l l' Hxy Hl IH]; [constructor|].
  destruct Hl; simpl in *; constructor; auto.
Qed.

Lemma Forall2_pop {A B} (R : A -> B -> Prop) l l' y :
  Forall2 R l l' -> pop l' = Some y -> exists x, pop l = Some x /\ R x y.
Proof.
  induction 1 as [|x0 y0 l l' Hxy Hl IH]; [discriminate|].
  destruct Hl; simpl in *.
  - intros [= <-]. eauto.
  - exact IH.
Qed.

Section Typed.
Context (engine : Engine).

Lemma is_user_typed j m : represents j m -> is_user engine j = inr (is_user_turn m).
Proof.
  intros (fields & -> & Hrole & _). unfold is_user, is_user_turn. simpl.
  rewrite Hrole. destruct (role m); reflexivity.
Qed.

Lemma render_typed j m : represents j m -> render engine j = inr (transcript_line m).
Proof.
  intros (fields & -> & Hrole & Hcontent). unfold render, transcript_line. simpl.
  rewrite Hrole, Hcontent. destruct (role m); reflexivity.
Qed.

Lemma filter_typed js ms :
  Forall2 represents js ms ->
  exists users, filterE (is_user engine) js = inr users /\
                Forall2 represents users (filter is_user_turn ms).
Proof.
  induction 1 as [|j m js ms Hjm _ (users & Hf & Hus)]; simpl.
  - exists []. split; [reflexivity | constructor].
  - rewrite (is_user_typed Hjm), Hf. simpl.
    destruct (is_user_turn m); eexists; split; try reflexivity; auto.
Qed.

Lemma map_typed js ms :
  Forall2 represents js ms -> mapE (render engine) js = inr (map transcript_line ms).
Proof.
  induction 1 as [|j m js ms Hjm _ IH]; simpl; [reflexivity|].
  rewrite (render_typed Hjm), IH. reflexivity.
Qed.

Lemma context_typed js ms :
  Forall2 represents js ms -> conversationContext engine js = inr (transcript ms).
Proof.
  intros H. unfold conversationContext, transcript.
  rewrite slice_all_but_last, (map_typed (Forall2_removelast H)). reflexivity.
Qed.

Lemma POST_typed parsed js ms lum upstream faults :
  messages_field parsed = Some (JArr js) ->
  Forall2 represents js ms ->
  last_user ms = Some lum ->
  let h := POST engine (inr parsed) upstream faults in
  status (response h) = 200 /\
  agent_calls h = [query_call (assembled ms (content lum))].
Proof.
  intros Hfield Hjs Hlast.
  destruct parsed as [| | | | |fields]; try discriminate Hfield.
  cbn [messages_field] in Hfield.
  destruct (filter_typed Hjs) as (users & Hfilter & Husers).
  destruct (Forall2_pop Husers Hlast) as (u & Hpop & (ufields & -> & Hurole & Hucontent)).
  unfold POST, POST_try.
  unfold bind, lift, Sentry_addBreadcrumb, modify, ret.
  cbn [get]. rewrite Hfield. cbn [truthy Array_isArray negb orb array_items].
  rewrite Hfilter, Hpop. cbn [truthy negb].
  rewrite (context_typed Hjs).
  unfold fullPrompt. cbn [get ebind]. rewrite Hucontent. cbn [ToString ToString_json ebind read_length].
  cbn [response agent_calls stream_response status]. split; [reflexivity|].
  unfold assembled. destruct (transcript ms =? EmptyString)%string; reflexivity.
Qed.
End Typed.

(** ** Strings and the transcript *)

Lemma append_nil_r (s : string) : (s ++ EmptyString)%string = s.
Proof. induction s as [|c s IH]; simpl; [reflexivity | now rewrite IH]. Qed.

Lemma append_assoc (a b c : string) : ((a ++ b) ++ c)%string = (a ++ b ++ c)%string.
Proof. induction a as [|x a IH]; simpl; [reflexivity | now rewrite IH]. Qed.

Lemma append_not_empty (a b : string) :
  b <> EmptyString -> (a ++ b)%string <> EmptyString.
Proof. destruct a; simpl; [auto | discriminate]. Qed.

Lemma join_cons sep x y rest :
  join sep (x :: y :: rest) = (x ++ sep ++ join sep (y :: rest))%string.
Proof. reflexivity. Qed.

(** A joined list contains each of its parts. *)
Lemma join_In {A} (f : A -> string) sep x l :
  In x l -> exists before after, join sep (map f l) = (before ++ f x ++ after)%string.
Proof.
  induction l as [|y rest IH]; [intros []|].
  intros [->|Hin].
  - exists EmptyString. destruct rest as [|z rest].
    + exists EmptyString. simpl. now rewrite append_nil_r.
    + eexists. cbn [map]. rewrite join_cons. reflexivity.
  - destruct (IH Hin) as (before & after & Heq).
    destruct rest as [|z rest]; [destruct Hin|].
    exists (f y ++ sep ++ before)%string, after.
    cbn [map] in *. rewrite join_cons, Heq.
    now rewrite !append_assoc.
Qed.

Lemma pop_In {A} (l : list A) x : pop l = Some x -> In x l.
Proof.
  induction l as [|y rest IH]; [discriminate|].
  destruct rest; simpl in *; [intros [= ->]; auto | auto].
Qed.

Lemma pop_last {A} (l : list A) x : pop l = Some x -> l = removelast l ++ [x].
Proof.
  induction l as [|y rest IH]; [discriminate|].
  destruct rest as [|z rest].
  - intros [= ->]. reflexivity.
  - intros H. specialize (IH H). cbn [removelast]. cbn [app]. f_equal. exact IH.
Qed.

(** The most recent user turn is a user turn of the list. *)
Lemma last_user_In ms lum : last_user ms = Some lum -> In lum ms /\ role lum = User.
Proof.
  intros H. apply pop_In, filter_In in H. destruct H as [Hin Hrole].
  split; [exact Hin|]. unfold is_user_turn in Hrole. destruct (role lum); [reflexivity|discriminate].
Qed.

(** When the array ends with an assistant turn, the most recent user turn is
    among the messages of the transcript. *)
Lemma last_user_in_transcript ms lum final :
  last_user ms = Some lum -> pop ms = Some final -> role final = Assistant ->
  In lum (removelast ms).
Proof.
  intros Hlum Hfinal Hrole.
  destruct (last_user_In _ Hlum) as [Hin Huser].
  rewrite (pop_last _ Hfinal) in Hin. apply in_app_or in Hin.
  destruct Hin as [Hin|[<-|[]]]; [exact Hin|congruence].
Qed.

(** ** The handler on bodies that fail validation *)

Section Rejected.
Context (engine : Engine).

Lemma rejection_bodies :
  body (json_response engine 400 "Messages array is required")
    = JsonText (error_body "Messages array is required") /\
  body (json_response engine 400 "No user message found")
    = JsonText (error_body "No user message found").
Proof. split; reflexivity. Qed.

Lemma filter_without_null js :
  ~ In JNull js -> filterE (is_user engine) js = inr (filter has_role_user js).
Proof.
  induction js as [|j rest IH]; intros Hnull; [reflexivity|].
  cbn [filterE filter]. rewrite IH by (intros H; apply Hnull; right; exact H).
  destruct j; try reflexivity.
  destruct Hnull. left. reflexivity.
Qed.

Lemma POST_without_array parsed upstream faults :
  parsed <> JNull ->
  Array_isArray (messages_field parsed) = false ->
  POST engine (inr parsed) upstream faults =
  {| response := json_response engine 400 "Messages array is required";
     handler_telemetry :=
       {| breadcrumbs :=
            [ {| category := "chat"; message := "Chat request received";
                 level := Info; data := [] |};
              validation_breadcrumb "Validation error: missing messages" "missing_messages" ];
          exceptions := [] |};
     agent_calls := [] |}.
Proof.
  intros Hnull Harray.
  assert (Hget : get engine (Some parsed) "messages" = inr (messages_field parsed))
    by (destruct parsed; try reflexivity; congruence).
  unfold POST, POST_try.
  unfold bind, lift, Sentry_addBreadcrumb, modify, ret.
  rewrite Hget, Harray, orb_true_r. reflexivity.
Qed.

Lemma POST_without_user parsed js upstream faults :
  messages_field parsed = Some (JArr js) ->
  ~ In JNull js ->
  filter has_role_user js = [] ->
  POST engine (inr parsed) upstream faults =
  {| response := json_response engine 400 "No user message found";
     handler_telemetry :=
       {| breadcrumbs :=
            [ {| category := "chat"; message := "Chat request received";
                 level := Info; data := [] |};
              validation_breadcrumb "Validation error: no user message" "no_user_message" ];
          exceptions := [] |};
     agent_calls := [] |}.
Proof.
  intros Hfield Hnull Hnone.
  destruct parsed as [| | | | |fields]; try discriminate Hfield.
  cbn [messages_field] in Hfield.
  unfold POST, POST_try.
  unfold bind, lift, Sentry_addBreadcrumb, modify, ret.
  cbn [get]. rewrite Hfield. cbn [truthy Array_isArray negb orb array_items].
  rewrite (filter_without_null js Hnull), Hnone. reflexivity.
Qed.
End Rejected.

(** ** Terminal frames and events pulled *)

Lemma count_terminal_app (a b : list Chunk) :
  count_terminal (a ++ b) = count_terminal a + count_terminal b.
Proof. unfold count_terminal. now rewrite filter_app, length_app. Qed.

Lemma count_terminal_frames (m : SDKMessage) :
  count_terminal (map Frame (frames_of m)) = if is_result m then 1 else 0.
Proof.
  destruct m as [[[[text|]|]|]|[content|]|tool_name elapsed|subtype|]; try reflexivity.
  - induction content as [|[id name|] rest IH]; simpl in *; auto.
  - simpl. destruct (subtype =? "success")%string; reflexivity.
Qed.

Lemma count_terminal_run (run : list SDKMessage) :
  count_terminal (map Frame (flat_map frames_of run)) = length (filter is_result run).
Proof.
  induction run as [|m rest IH]; [reflexivity|].
  cbn [flat_map filter]. rewrite map_app, count_terminal_app, count_terminal_frames, IH.
  destruct (is_result m); reflexivity.
Qed.

Lemma for_await_pulled (run : list SDKMessage) (final : Ending) (st : RelayState) :
  pulled (snd (for_await (relay_event no_faults) run final st)) = pulled st + length run.
Proof.
  revert st. induction run as [|m rest IH]; intros st.
  - destruct final; simpl; lia.
  - cbn [for_await]. unfold bind. cbn [pull modify].
    destruct (relay_event_accepted m (snd (pull st))) as (Hr & _).
    destruct (relay_event_one_event no_faults m (snd (pull st))) as (Hp & _).
    cbn [pull modify snd] in Hr, Hp.
    destruct (relay_event no_faults m _) as [[e|[]] s1]; cbn [fst snd] in *; [discriminate|].
    rewrite IH, Hp. simpl. lia.
Qed.

Lemma start_pulled faults upstream st :
  pulled (snd (start faults upstream st)) =
  pulled (snd (for_await (relay_event faults) (events upstream) (ending upstream) st)).
Proof.
  unfold start, relay_try, try_catch. unfold bind at 1.
  destruct (for_await _ _ _ st) as [[e|[]] s1]; cbn [snd].
  - apply (relay_catch_quiet faults e s1).
  - pose proof (closing_quiet faults s1) as (H2 & _).
    unfold bind in H2 |- *.
    destruct (telemetry _ s1) as [[e|[]] s2]; cbn [snd] in H2.
    + rewrite <- H2. apply (relay_catch_quiet faults e s2).
    + destruct (enqueue faults DONE_marker s2) as [[e|[]] s3]; cbn [snd] in H2.
      * rewrite <- H2. apply (relay_catch_quiet faults e s3).
      * destruct (close faults s3) as [[e|[]] s4]; cbn [snd] in H2.
        -- rewrite <- H2. apply (relay_catch_quiet faults e s4).
        -- simpl. exact H2.
Qed.

(** ** The relay while the controller accepts the calls it is given *)

Lemma granted_ret faults : granted faults 0 [] false (ret tt).
Proof. intros st _. simpl. rewrite app_nil_r. auto. Qed.

Lemma granted_bind faults n1 n2 a b ca cb (m : M RelayState unit)
    (k : unit -> M RelayState unit) :
  granted faults n1 a ca m -> granted faults n2 b cb (k tt) ->
  granted faults (n1 + n2) (a ++ b) (cb || ca) (bind m k).
Proof.
  intros Hm Hk st Hw. unfold bind.
  destruct (Hm st) as (Hr & Hq & Hc & Hn & Hp); [intros j ? ?; apply Hw; lia|].
  destruct (m st) as [[e|[]] st1]; simpl in *; [discriminate|].
  destruct (Hk st1) as (Hr' & Hq' & Hc' & Hn' & Hp'); [intros j ? ?; apply Hw; lia|].
  rewrite Hr', Hq', Hc', Hn', Hp', Hq, Hc, Hn, Hp, app_assoc, orb_assoc.
  repeat split; auto. lia.
Qed.

Lemma granted_try_catch faults n chunks closes (m : M RelayState unit) handler :
  granted faults n chunks closes m -> granted faults n chunks closes (try_catch m handler).
Proof.
  intros Hm st Hw. unfold try_catch.
  destruct (Hm st Hw) as (Hr & Hq & Hc & Hn & Hp).
  destruct (m st) as [[e|[]] st1]; simpl in *; [discriminate|auto].
Qed.

Lemma granted_chunkCount faults : granted faults 0 [] false incr_chunkCount.
Proof. intros st _. simpl. rewrite app_nil_r. auto. Qed.

Lemma granted_textDeltaCount faults : granted faults 0 [] false incr_textDeltaCount.
Proof. intros st _. simpl. rewrite app_nil_r. auto. Qed.

Lemma granted_toolsUsedCount faults : granted faults 0 [] false incr_toolsUsedCount.
Proof. intros st _. simpl. rewrite app_nil_r. auto. Qed.

Lemma granted_pull faults : granted faults 0 [] false pull.
Proof. intros st _. simpl. rewrite app_nil_r. auto. Qed.

Lemma granted_breadcrumb faults b :
  granted faults 0 [] false (telemetry (Sentry_addBreadcrumb b)).
Proof. intros st _. simpl. rewrite app_nil_r. auto. Qed.

Lemma granted_enqueue faults chunk : granted faults 1 [chunk] false (enqueue faults chunk).
Proof.
  intros st Hw. unfold enqueue, controller_call.
  rewrite (Hw (calls (controller st))) by lia. simpl. repeat split; auto. lia.
Qed.

Lemma granted_close faults : granted faults 1 [] true (close faults).
Proof.
  intros st Hw. unfold close, controller_call.
  rewrite (Hw (calls (controller st))) by lia. simpl. rewrite app_nil_r.
  repeat split; auto. lia.
Qed.

Lemma granted_gets faults {A} (f : RelayState -> A) n chunks closes
    (k : A -> M RelayState unit) :
  (forall a, granted faults n chunks closes (k a)) ->
  granted faults n chunks closes (bind (gets f) k).
Proof. intros Hk st. exact (Hk (f st) st). Qed.

Lemma granted_as faults n chunks closes n' chunks' closes' m :
  granted faults n chunks closes m -> n = n' -> chunks = chunks' -> closes = closes' ->
  granted faults n' chunks' closes' m.
Proof. intros H <- <- <-. exact H. Qed.

(** Chains the facts about the statements of a sequence. *)
Ltac grant :=
  cbv beta;
  first
    [ apply granted_ret | apply granted_chunkCount | apply granted_textDeltaCount
    | apply granted_toolsUsedCount | apply granted_pull | apply granted_breadcrumb
    | apply granted_enqueue | apply granted_close
    | apply granted_try_catch; grant
    | eapply granted_bind; [grant | grant] ].

Lemma tool_blocks_granted faults (content : list ContentBlock) :
  granted faults (length (frames_of (assistant (Some content))))
    (map Frame (frames_of (assistant (Some content)))) false
    (relay_tool_use faults (assistant (Some content))).
Proof.
  induction content as [|block rest IH].
  - apply granted_ret.
  - destruct block as [id name|]; cbn [relay_tool_use for_of].
    + eapply granted_as; [eapply granted_bind; [grant | exact IH] | | | ]; reflexivity.
    + eapply granted_as; [eapply granted_bind; [grant | exact IH] | | | ]; reflexivity.
Qed.

Lemma relay_event_granted faults (m : SDKMessage) :
  granted faults (length (frames_of m)) (map Frame (frames_of m)) false
    (relay_event faults m).
Proof.
  unfold relay_event.
  destruct m as [[[[text|]|]|]|[content|]|tool_name elapsed|subtype|];
    cbn [relay_text_delta relay_tool_progress relay_success relay_failure frames_of];
    try destruct (subtype =? "success")%string; cbn [negb];
    try (eapply granted_as;
         [ eapply granted_bind; [grant|];
           eapply granted_bind; [grant|];
           eapply granted_bind; [apply tool_blocks_granted|];
           grant
         | cbn [frames_of]; rewrite ?Nat.add_0_r; reflexivity
         | cbn [frames_of]; rewrite ?app_nil_r; reflexivity
         | reflexivity ]; fail);
    (eapply granted_as; [grant | reflexivity | simpl; rewrite ?app_nil_r; reflexivity
                        | reflexivity]).
Qed.

Lemma for_await_granted faults (run : list SDKMessage) :
  granted faults (length (flat_map frames_of run)) (map Frame (flat_map frames_of run)) false
    (for_await (relay_event faults) run Exhausted).
Proof.
  induction run as [|m rest IH]; cbn [for_await flat_map].
  - apply granted_ret.
  - eapply granted_as.
    + eapply granted_bind; [apply granted_pull|].
      eapply granted_bind; [apply relay_event_granted | exact IH].
    + rewrite length_app. reflexivity.
    + rewrite map_app. reflexivity.
    + reflexivity.
Qed.

Lemma relay_try_granted faults (run : list SDKMessage) :
  granted faults (length (flat_map frames_of run) + 2)
    (map Frame (flat_map frames_of run) ++ [DONE_marker]) true
    (relay_try faults {| events := run; ending := Exhausted |}).
Proof.
  unfold relay_try; cbn [events ending].
  eapply granted_as.
  - eapply granted_bind; [apply for_await_granted|].
    eapply granted_bind; [apply granted_breadcrumb|].
    eapply granted_bind; [apply granted_enqueue|].
    eapply granted_bind; [apply granted_close|].
    apply granted_gets. intros c. apply granted_breadcrumb.
  - simpl. lia.
  - simpl. reflexivity.
  - reflexivity.
Qed.

(** ** One event at the head of the run *)

(** Unfolds one pass through the loop body down to the state it builds. *)
Ltac run_relay :=
  unfold relay_event, relay_text_delta, relay_tool_use, relay_tool_progress,
    relay_success, relay_failure, incr_chunkCount, incr_textDeltaCount,
    incr_toolsUsedCount, incr_parseErrorCount, update_counters, telemetry,
    Sentry_addBreadcrumb, Sentry_captureException, enqueue, close, controller_call,
    pull, gets, modify, try_catch, bind, ret, throw; simpl.

Lemma text_delta_continues faults text rest final st :
  for_await (relay_event faults) (text_delta_event text :: rest) final st =
  for_await (relay_event faults) rest final (after_text_delta faults text st).
Proof.
  unfold after_text_delta, text_delta_event. cbn [for_await].
  run_relay.
  destruct (faults (calls (controller st))) as [e|]; reflexivity.
Qed.

Lemma success_continues faults rest final st :
  faults (calls (controller st)) = None ->
  for_await (relay_event faults) (result "success" :: rest) final st =
  for_await (relay_event faults) rest final (after_success st).
Proof.
  intros Hok. unfold after_success. cbn [for_await].
  run_relay. rewrite Hok. reflexivity.
Qed.

Lemma for_await_app body (a b : list SDKMessage) final st :
  for_await body (a ++ b) final st =
  bind (for_await body a Exhausted) (fun _ => for_await body b final) st.
Proof.
  revert st. induction a as [|m a IH]; intros st; [reflexivity|].
  cbn [app for_await]. unfold bind. unfold pull, modify.
  destruct (body m _) as [[e|[]] s2]; [reflexivity|].
  rewrite IH. reflexivity.
Qed.

Lemma for_await_drained faults run final st :
  fst (for_await (relay_event faults) run final st) = inr tt ->
  pulled (snd (for_await (relay_event faults) run final st)) = pulled st + length run.
Proof.
  revert st. induction run as [|m rest IH]; intros st.
  - destruct final; simpl; [lia | discriminate].
  - cbn [for_await]. unfold bind. cbn [pull modify].
    destruct (relay_event_one_event faults m (snd (pull st))) as (Hp & _).
    cbn [pull modify snd] in Hp.
    destruct (relay_event faults m _) as [[e|[]] s1]; cbn [fst snd] in *; [discriminate|].
    intros Hr. rewrite (IH s1 Hr), Hp. simpl. lia.
Qed.

Lemma bind_from {A B} (m m' : M RelayState A) (k : A -> M RelayState B) st st' :
  m st = m' st' -> bind m k st = bind m' k st'.
Proof. unfold bind. intros ->. reflexivity. Qed.

Lemma relay_try_split faults (before rest : list SDKMessage) final st :
  relay_try faults {| events := before ++ rest; ending := final |} st =
  match for_await (relay_event faults) before Exhausted st with
  | (inr _, s1) => relay_try faults {| events := rest; ending := final |} s1
  | (inl e, s1) => (inl e, s1)
  end.
Proof.
  unfold relay_try; cbn [events ending]. unfold bind at 1. rewrite for_await_app.
  unfold bind.
  destruct (for_await (relay_event faults) before Exhausted st) as [[e|[]] s1]; reflexivity.
Qed.

Lemma after_refusal faults text e st :
  faults (calls (controller st)) = Some e ->
  queue (controller (after_text_delta faults text st)) = queue (controller st) /\
  closed (controller (after_text_delta faults text st)) = closed (controller st) /\
  calls (controller (after_text_delta faults text st)) = S (calls (controller st)) /\
  parseErrorCount (counters (after_text_delta faults text st))
    = S (parseErrorCount (counters st)).
Proof. unfold after_text_delta. intros ->. simpl. auto. Qed.

(** A run in which the controller refuses one call, the one that enqueues
    the frame of a text delta: the events before and after the delta are
    relayed as if nothing had happened, the end marker follows and the stream
    is closed. *)
Lemma start_with_one_refusal (before after : list SDKMessage) text e st :
  let faults := fails_at (calls (controller st) + length (flat_map frames_of before)) e in
  let r := start faults
             {| events := before ++ text_delta_event text :: after; ending := Exhausted |}
             st in
  fst r = inr tt /\
  closed (controller (snd r)) = true /\
  queue (controller (snd r)) =
    queue (controller st) ++ map Frame (flat_map frames_of before)
      ++ map Frame (flat_map frames_of after) ++ [DONE_marker] /\
  parseErrorCount (counters (snd r)) = S (parseErrorCount (counters st)) /\
  pulled (snd r) = pulled st + length (before ++ text_delta_event text :: after).
Proof.
  cbv zeta.
  set (n := calls (controller st) + length (flat_map frames_of before)).
  set (faults := fails_at n e).
  assert (Hother : forall k, k <> n -> faults k = None).
  { intros k Hk. unfold faults, fails_at. apply Nat.eqb_neq in Hk. rewrite Hk. reflexivity. }
  assert (Hat : faults n = Some e).
  { unfold faults, fails_at. rewrite Nat.eqb_refl. reflexivity. }
  destruct (for_await_granted faults before st) as (Hr & Hq & Hc & Hn & Hp).
  { intros k ? ?. apply Hother. unfold n. lia. }
  fold n in Hn.
  assert (Hloop : fst (for_await (relay_event faults)
                         (before ++ text_delta_event text :: after) Exhausted st) = inr tt).
  { rewrite for_await_app. unfold bind.
    destruct (for_await (relay_event faults) before Exhausted st) as [[e1|[]] s1];
      cbn [fst snd] in Hr, Hn; [discriminate|].
    rewrite text_delta_continues.
    apply (for_await_granted faults after).
    intros k Hk _. apply Hother.
    rewrite <- Hn in Hat. destruct (@after_refusal faults text e s1 Hat) as (_ & _ & Hcalls & _).
    rewrite Hcalls in Hk. lia. }
  rewrite start_pulled; cbn [events ending]. rewrite (@for_await_drained _ _ _ _ Hloop).
  unfold start, try_catch. rewrite relay_try_split.
  destruct (for_await (relay_event faults) before Exhausted st) as [[e1|[]] s1];
    cbn [fst snd] in Hr, Hq, Hc, Hn, Hp; [discriminate|].
  assert (Hhead : relay_try faults
                    {| events := text_delta_event text :: after; ending := Exhausted |} s1
                  = relay_try faults {| events := after; ending := Exhausted |}
                      (after_text_delta faults text s1)).
  { unfold relay_try; cbn [events ending]. apply bind_from. apply text_delta_continues. }
  rewrite Hhead.
  rewrite <- Hn in Hat.
  destruct (@after_refusal faults text e s1 Hat) as (Hq1 & Hc1 & Hn1 & Hp1).
  destruct (relay_try_granted faults after (after_text_delta faults text s1))
    as (Hr2 & Hq2 & Hc2 & _ & Hp2).
  { intros k Hk _. apply Hother. rewrite Hn1 in Hk. lia. }
  destruct (relay_try faults {| events := after; ending := Exhausted |} _) as [[e2|[]] s2];
    cbn [fst snd] in Hr2, Hq2, Hc2, Hp2 |- *; [discriminate|].
  rewrite Hq2, Hc2, Hp2, Hq1, Hp1, Hq, Hp, <- !app_assoc. repeat split; reflexivity.
Qed.

Lemma start_granted faults (run : list SDKMessage) :
  granted faults (length (flat_map frames_of run) + 2)
    (map Frame (flat_map frames_of run) ++ [DONE_marker]) true
    (start faults {| events := run; ending := Exhausted |}).
Proof. unfold start. apply granted_try_catch, relay_try_granted. Qed.

Lemma start_drains faults (run : list SDKMessage) st :
  (forall k, calls (controller st) <= k -> faults k = None) ->
  pulled (snd (start faults {| events := run; ending := Exhausted |} st))
    = pulled st + length run.
Proof.
  intros Hw. rewrite start_pulled; cbn [events ending].
  apply for_await_drained. apply (for_await_granted faults run).
  intros k Hk _. apply Hw, Hk.
Qed.

(** * The claims *)

(** C1, as stated, fails: when the upstream iterator throws after two text
    deltas, [start] returns and the stream is closed, but it holds the two
    text frames and one error frame only; the end marker is not in it. *)
Lemma upstream_throw_leaves_no_end_marker :
  let run := start no_faults
               {| events := [text_delta_event "a"; text_delta_event "b"];
                  ending := Throws (JsError "Error" "upstream failed") |}
               (initial_state no_telemetry) in
  fst run = inr tt /\
  closed (controller (snd run)) = true /\
  queue (controller (snd run)) =
    [Frame (text_delta_frame "a"); Frame (text_delta_frame "b");
     Frame (error_frame "Stream error occurred")] /\
  ~ In DONE_marker (queue (controller (snd run))).
Proof.
  cbv zeta. repeat split; try reflexivity.
  simpl. intros [H|[H|[H|[]]]]; discriminate H.
Qed.

(** C1, amended: with a controller that accepts every call, [start] always
    returns and closes the stream.  When the upstream iterator is exhausted
    the stream holds the frames of the events and then the end marker, whose
    bytes are the line [data: [DONE]] and two newlines.  When the upstream
    iterator throws, the stream holds the frames of the events pulled before
    the throw and then one error frame with the message
    [Stream error occurred]; no end marker follows it. *)
Theorem stream_ends_by_marker_or_error (engine : Engine) (run : list SDKMessage)
    (st : RelayState) :
  (let r := start no_faults {| events := run; ending := Exhausted |} st in
   fst r = inr tt /\
   closed (controller (snd r)) = true /\
   queue (controller (snd r)) =
     queue (controller st) ++ map Frame (flat_map frames_of run) ++ [DONE_marker] /\
   wire engine DONE_marker = ("data: [DONE]" ++ newline ++ newline)%string) /\
  (forall e,
     let r := start no_faults {| events := run; ending := Throws e |} st in
     fst r = inr tt /\
     closed (controller (snd r)) = true /\
     queue (controller (snd r)) =
       queue (controller st) ++ map Frame (flat_map frames_of run)
         ++ [Frame (error_frame "Stream error occurred")]).
Proof.
  split; [|intros e]; cbv zeta.
  - destruct (start_accepted run Exhausted st) as (Hr & Hq & Hc).
    rewrite Hr, Hq, Hc. repeat split; reflexivity.
  - destruct (start_accepted run (Throws e) st) as (Hr & Hq & Hc).
    rewrite Hr, Hq, Hc. repeat split; reflexivity.
Qed.

(** C2, as stated, fails: two successful results give two [done] frames on
    one stream. *)
Lemma two_results_two_terminal_frames :
  let run := start no_faults
               {| events := [result "success"; result "success"]; ending := Exhausted |}
               (initial_state no_telemetry) in
  queue (controller (snd run)) = [Frame done_frame; Frame done_frame; DONE_marker] /\
  count_terminal (queue (controller (snd run))) = 2.
Proof. cbv zeta. split; reflexivity. Qed.

(** C2, amended: with a controller that accepts every call, the stream of a
    request carries one terminal frame for each [result] event of the
    upstream ([done] for a success, [error] for anything else), and one more
    [error] frame if the upstream iterator throws.  When the iterator is
    exhausted the frames are followed by the end marker; a stream has exactly
    one terminal frame when the upstream gives exactly one result. *)
Theorem terminal_frames_follow_results (run : list SDKMessage) (final : Ending) :
  let r := start no_faults {| events := run; ending := final |} (initial_state no_telemetry) in
  count_terminal (queue (controller (snd r))) =
    length (filter is_result run) + match final with Exhausted => 0 | Throws _ => 1 end /\
  queue (controller (snd r)) = map Frame (flat_map frames_of run) ++ [last_chunk final].
Proof.
  cbv zeta.
  destruct (start_accepted run final (initial_state no_telemetry)) as (_ & Hq & _).
  rewrite Hq. cbn [initial_state controller queue app]. split; [|reflexivity].
  rewrite count_terminal_app, count_terminal_run. destruct final; reflexivity.
Qed.

(** C3: with a controller that accepts every call, the stream holds the
    frames of the upstream events in the order of the events, each event's
    frames together, and the end marker after them.  For the events
    text delta [a], tool use [search], text delta [b], successful result, the
    stream is text_delta a, tool_start search, text_delta b, done, end
    marker. *)
Theorem frames_keep_event_order :
  (forall (run : list SDKMessage) (st : RelayState),
     queue (controller (snd (start no_faults {| events := run; ending := Exhausted |} st))) =
     queue (controller st) ++ map Frame (flat_map frames_of run) ++ [DONE_marker]) /\
  queue (controller (snd (start no_faults
     {| events := [text_delta_event "a"; assistant (Some [tool_use "toolu_01" "search"]);
                   text_delta_event "b"; result "success"];
        ending := Exhausted |}
     (initial_state no_telemetry)))) =
  [Frame (text_delta_frame "a"); Frame (tool_start_frame "search");
   Frame (text_delta_frame "b"); Frame done_frame; DONE_marker].
Proof.
  split; [|reflexivity].
  intros run st. destruct (start_accepted run Exhausted st) as (_ & Hq & _). exact Hq.
Qed.

Lemma as_json_represents (ms : list MessageInput) : Forall2 represents (map as_json ms) ms.
Proof.
  induction ms as [|m rest IH]; constructor; [|exact IH].
  eexists. repeat split; simpl; destruct (role m); reflexivity.
Qed.



(** C5, as stated, fails: the body [null] has no [messages] member, yet the
    answer is 500, the destructuring of [null] having thrown. *)
Lemma null_body_is_answered_500 :
  Array_isArray (messages_field JNull) = false /\
  status (response (POST example_engine (inr JNull) silent no_faults)) = 500 /\
  body (response (POST example_engine (inr JNull) silent no_faults)) =
    JsonText (error_body "Failed to process chat request. Check server logs for details.").
Proof. repeat split; reflexivity. Qed.

(** C5, amended: for every parsed body other than [null] that has no member
    [messages] holding an array, the response is 400 with the body
    [{error: Messages array is required}], and the agent is not called. *)
Theorem missing_messages_rejected (engine : Engine) (parsed : json)
    (upstream : Upstream) (faults : Faults) :
  parsed <> JNull ->
  Array_isArray (messages_field parsed) = false ->
  let h := POST engine (inr parsed) upstream faults in
  status (response h) = 400 /\
  body (response h) = JsonText (error_body "Messages array is required") /\
  agent_calls h = [].
Proof.
  intros Hnull Harray. cbv zeta.
  rewrite (POST_without_array engine upstream faults Hnull Harray).
  repeat split; reflexivity.
Qed.

Lemma missing_messages_rejected_witness :
  JObj [("messages", JStr "hi")] <> JNull /\
  Array_isArray (messages_field (JObj [("messages", JStr "hi")])) = false /\
  let h := POST example_engine (inr (JObj [("messages", JStr "hi")])) silent no_faults in
  status (response h) = 400 /\
  body (response h) = JsonText (error_body "Messages array is required") /\
  agent_calls h = [].
Proof.
  split; [discriminate|]. split; [reflexivity|].
  apply (missing_messages_rejected example_engine silent no_faults
           (parsed := JObj [("messages", JStr "hi")])).
  - discriminate.
  - reflexivity.
Defined.

(** C6, as stated, fails: the array [[null]] has no entry with role [user],
    yet the answer is 500, the reading of the entry's role having thrown. *)
Lemma null_entry_is_answered_500 :
  filter has_role_user [JNull] = [] /\
  status (response (POST example_engine (inr (body_of [JNull])) silent no_faults)) = 500 /\
  body (response (POST example_engine (inr (body_of [JNull])) silent no_faults)) =
    JsonText (error_body "Failed to process chat request. Check server logs for details.").
Proof. repeat split; reflexivity. Qed.

(** C6, amended: for every body whose [messages] array has no [null] entry
    and no entry with role [user] (the empty array included), the response is
    400 with the body [{error: No user message found}], and the agent is not
    called. *)
Theorem no_user_message_rejected (engine : Engine) (parsed : json) (js : list json)
    (upstream : Upstream) (faults : Faults) :
  messages_field parsed = Some (JArr js) ->
  ~ In JNull js ->
  filter has_role_user js = [] ->
  let h := POST engine (inr parsed) upstream faults in
  status (response h) = 400 /\
  body (response h) = JsonText (error_body "No user message found") /\
  agent_calls h = [].
Proof.
  intros Hfield Hnull Hnone. cbv zeta.
  rewrite (POST_without_user engine parsed upstream faults Hfield Hnull Hnone).
  repeat split; reflexivity.
Qed.

Lemma no_user_message_rejected_witness :
  messages_field (body_of [chat "assistant" "hello"]) = Some (JArr [chat "assistant" "hello"]) /\
  ~ In JNull [chat "assistant" "hello"] /\
  filter has_role_user [chat "assistant" "hello"] = [] /\
  let h := POST example_engine (inr (body_of [chat "assistant" "hello"])) silent no_faults in
  status (response h) = 400 /\
  body (response h) = JsonText (error_body "No user message found") /\
  agent_calls h = [].
Proof.
  split; [reflexivity|].
  split; [intros [H|[]]; discriminate H|].
  split; [reflexivity|].
  apply (no_user_message_rejected example_engine (body_of [chat "assistant" "hello"])
           (js := [chat "assistant" "hello"]) silent no_faults).
  - reflexivity.
  - intros [H|[]]; discriminate H.
  - reflexivity.
Defined.

(** C7: one pass of the loop body on a text-delta event, from any state
    and whatever the controller does, returns normally: the event is counted
    as a chunk and as a text delta, and the controller is called once, with
    the frame of the delta.  If the call is accepted the frame joins the
    queue; if it throws, the failure is counted in [parseErrorCount], a
    warning breadcrumb is recorded, the frame is dropped and nothing is
    thrown further.  The loop then goes on with the events that remain.  In a
    whole run in which the controller refuses exactly that call, every event
    is pulled, the frames of the events before and after the delta are on the
    stream in their order, the end marker follows them and the stream is
    closed: [start] returns as for a run without a failure. *)
Theorem text_delta_never_stops_the_loop (faults : Faults) (text : string) (st : RelayState) :
  let r := relay_event faults (text_delta_event text) st in
  fst r = inr tt /\
  chunkCount (counters (snd r)) = S (chunkCount (counters st)) /\
  textDeltaCount (counters (snd r)) = S (textDeltaCount (counters st)) /\
  calls (controller (snd r)) = S (calls (controller st)) /\
  closed (controller (snd r)) = closed (controller st) /\
  match faults (calls (controller st)) with
  | Some encodeError =>
      parseErrorCount (counters (snd r)) = S (parseErrorCount (counters st)) /\
      breadcrumbs (sentry (snd r))
        = breadcrumbs (sentry st) ++ [encoding_warning encodeError] /\
      level (encoding_warning encodeError) = Warning /\
      queue (controller (snd r)) = queue (controller st)
  | None =>
      parseErrorCount (counters (snd r)) = parseErrorCount (counters st) /\
      breadcrumbs (sentry (snd r)) = breadcrumbs (sentry st) /\
      queue (controller (snd r)) = queue (controller st) ++ [Frame (text_delta_frame text)]
  end /\
  (forall rest final,
     for_await (relay_event faults) (text_delta_event text :: rest) final st =
     for_await (relay_event faults) rest final
       (snd (for_await (relay_event faults) [text_delta_event text] Exhausted st))) /\
  (forall before after e,
     let refusing := fails_at (calls (controller st) + length (flat_map frames_of before)) e in
     let run := start refusing
                  {| events := before ++ text_delta_event text :: after;
                     ending := Exhausted |} st in
     fst run = inr tt /\
     closed (controller (snd run)) = true /\
     queue (controller (snd run)) =
       queue (controller st) ++ map Frame (flat_map frames_of before)
         ++ map Frame (flat_map frames_of after) ++ [DONE_marker] /\
     parseErrorCount (counters (snd run)) = S (parseErrorCount (counters st)) /\
     pulled (snd run) = pulled st + length (before ++ text_delta_event text :: after)).
Proof.
  cbv zeta. repeat match goal with |- _ /\ _ => split end.
  1-5: unfold text_delta_event; run_relay;
       destruct (faults (calls (controller st))); reflexivity.
  - unfold text_delta_event. run_relay.
    destruct (faults (calls (controller st))); repeat split; reflexivity.
  - intros rest final. rewrite !text_delta_continues. reflexivity.
  - intros before after e. apply start_with_one_refusal.
Qed.

(** C8: whatever the upstream and the controller do, no counter ever
    decreases, from one event to the next or over the whole run; each event
    pulled adds exactly one to [chunkCount], whatever its kind; at the end
    [chunkCount] is the number of events pulled and [textDeltaCount] is at
    most [chunkCount]; and a summary breadcrumb, when one is recorded, holds
    the final values of the four counters.  With a controller that accepts
    every call, every event of the upstream is pulled and counted. *)
Theorem counters_account_for_the_run (faults : Faults) (upstream : Upstream) :
  let final := snd (start faults upstream (initial_state no_telemetry)) in
  (forall st m,
     counters_le (counters st) (counters (snd (relay_event faults m st))) /\
     chunkCount (counters (snd (relay_event faults m st))) = S (chunkCount (counters st))) /\
  (forall st, counters_le (counters st) (counters (snd (start faults upstream st)))) /\
  chunkCount (counters final) = pulled final /\
  textDeltaCount (counters final) <= chunkCount (counters final) /\
  (forall b, In b (breadcrumbs (sentry final)) ->
             message b = "Chat stream completed" ->
             b = summary_breadcrumb (counters final)) /\
  chunkCount (counters (snd (start no_faults upstream (initial_state no_telemetry))))
    = length (events upstream).
Proof.
  cbv zeta.
  pose proof (start_counting faults upstream (initial_state no_telemetry)) as (_ & Hp & Ht).
  split; [|split; [|split; [|split; [|split]]]].
  - intros st m. destruct (relay_event_one_event faults m st) as (_ & Hc & Hd & Hu & He & _).
    unfold counters_le. intuition lia.
  - intros st. apply (start_counting faults upstream st).
  - apply Hp. reflexivity.
  - apply Ht. simpl. lia.
  - apply (start_summarised faults upstream (st := initial_state no_telemetry)). constructor.
  - pose proof (start_counting no_faults upstream (initial_state no_telemetry)) as (_ & Hq & _).
    rewrite (Hq eq_refl), start_pulled, for_await_pulled. reflexivity.
Qed.

Lemma counters_account_for_the_run_witness :
  let final := snd (start no_faults short_answer (initial_state no_telemetry)) in
  In (summary_breadcrumb (counters final)) (breadcrumbs (sentry final)) /\
  message (summary_breadcrumb (counters final)) = "Chat stream completed" /\
  counters final = {| chunkCount := 2; textDeltaCount := 1;
                      toolsUsedCount := 0; parseErrorCount := 0 |} /\
  chunkCount (counters final) = pulled final /\
  chunkCount (counters final) = length (events short_answer).
Proof.
  cbv zeta.
  destruct (counters_account_for_the_run no_faults short_answer)
    as (_ & _ & Hpulled & _ & _ & Hlength).
  split; [simpl; auto 10|]. split; [reflexivity|]. split; [reflexivity|].
  split; [exact Hpulled | exact Hlength].
Defined.

(** C9: one pass of the loop body on a result with subtype [success],
    when the controller accepts the call, returns normally with the event
    counted and one [done] frame added to the queue; it does not close the
    stream, and the loop goes on with the events that remain.  In a whole run
    in which the controller accepts every call, a successful result anywhere
    in the run does not end it: every event after the result is pulled, its
    frames follow the [done] frame on the stream, and only then come the end
    marker and the close. *)
Theorem success_does_not_end_the_loop (faults : Faults) (st : RelayState) :
  (faults (calls (controller st)) = None ->
   let r := relay_event faults (result "success") st in
   fst r = inr tt /\
   chunkCount (counters (snd r)) = S (chunkCount (counters st)) /\
   queue (controller (snd r)) = queue (controller st) ++ [Frame done_frame] /\
   closed (controller (snd r)) = closed (controller st) /\
   forall rest final,
     for_await (relay_event faults) (result "success" :: rest) final st =
     for_await (relay_event faults) rest final
       (snd (for_await (relay_event faults) [result "success"] Exhausted st))) /\
  ((forall k, calls (controller st) <= k -> faults k = None) ->
   forall before after,
     let run := start faults
                  {| events := before ++ result "success" :: after; ending := Exhausted |}
                  st in
     fst run = inr tt /\
     closed (controller (snd run)) = true /\
     queue (controller (snd run)) =
       queue (controller st) ++ map Frame (flat_map frames_of before)
         ++ Frame done_frame :: map Frame (flat_map frames_of after) ++ [DONE_marker] /\
     pulled (snd run) = pulled st + length (before ++ result "success" :: after)).
Proof.
  split.
  - intros Hok. cbv zeta. repeat match goal with |- _ /\ _ => split end.
    1-4: run_relay; rewrite Hok; reflexivity.
    intros rest final. rewrite !(success_continues faults _ _ st Hok). reflexivity.
  - intros Hw before after. cbv zeta.
    rewrite (start_drains faults _ st Hw).
    destruct (start_granted faults (before ++ result "success" :: after) st)
      as (Hr & Hq & Hc & _); [intros k Hk _; apply Hw, Hk|].
    rewrite Hr, Hq, Hc, flat_map_app, map_app, <- !app_assoc.
    repeat split; reflexivity.
Qed.

Lemma success_does_not_end_the_loop_witness :
  let run := start no_faults
               {| events := [result "success"; text_delta_event "late"];
                  ending := Exhausted |}
               (initial_state no_telemetry) in
  no_faults (calls (controller (initial_state no_telemetry))) = None /\
  (forall k, calls (controller (initial_state no_telemetry)) <= k -> no_faults k = None) /\
  fst run = inr tt /\
  closed (controller (snd run)) = true /\
  queue (controller (snd run)) =
    [Frame done_frame; Frame (text_delta_frame "late"); DONE_marker] /\
  pulled (snd run) = 2.
Proof.
  cbv zeta. split; [reflexivity|]. split; [reflexivity|].
  apply (proj2 (success_does_not_end_the_loop no_faults (initial_state no_telemetry))
           (fun k _ => eq_refl) [] [text_delta_event "late"]).
Defined.

(** C10: for a body whose [messages] are messages of the declared type and
    end with an assistant turn, the prompt given to the agent holds the
    content of the most recent user turn twice: inside the transcript, as the
    line [User: content] of that turn, and again after the closing
    [User: ]. *)
Theorem assistant_last_repeats_user_turn (engine : Engine) (parsed : json) (js : list json)
    (ms : list MessageInput) (lum final : MessageInput) (upstream : Upstream)
    (faults : Faults) :
  messages_field parsed = Some (JArr js) ->
  Forall2 represents js ms ->
  last_user ms = Some lum ->
  pop ms = Some final ->
  role final = Assistant ->
  exists before after,
    transcript ms = (before ++ ("User: " ++ content lum) ++ after)%string /\
    agent_calls (POST engine (inr parsed) upstream faults) =
      [query_call (SYSTEM_PROMPT ++ blank_line ++ "Previous conversation:" ++ newline
                     ++ transcript ms ++ blank_line ++ "User: " ++ content lum)%string].
Proof.
  intros Hfield Hjs Hlast Hfinal Hrole.
  destruct (POST_typed engine parsed upstream faults Hfield Hjs Hlast) as (_ & Hcalls).
  pose proof (last_user_in_transcript ms Hlast Hfinal Hrole) as Hin.
  destruct (last_user_In _ Hlast) as [_ Huser].
  destruct (join_In transcript_line blank_line lum (removelast ms) Hin)
    as (before & after & Heq).
  fold (transcript ms) in Heq.
  assert (Hline : transcript_line lum = ("User: " ++ content lum)%string)
    by (unfold transcript_line; rewrite Huser; reflexivity).
  rewrite Hline in Heq.
  exists before, after. split; [exact Heq|].
  rewrite Hcalls. unfold assembled.
  destruct (String.eqb_spec (transcript ms) EmptyString) as [Hempty|_]; [|reflexivity].
  exfalso. rewrite Heq in Hempty. revert Hempty.
  apply append_not_empty. simpl. discriminate.
Qed.

Lemma assistant_last_repeats_user_turn_witness :
  messages_field (body_of (map as_json interrupted)) = Some (JArr (map as_json interrupted)) /\
  Forall2 represents (map as_json interrupted) interrupted /\
  last_user interrupted = Some {| role := User; content := "hi" |} /\
  pop interrupted = Some {| role := Assistant; content := "hello" |} /\
  role {| role := Assistant; content := "hello" |} = Assistant /\
  exists before after,
    transcript interrupted = (before ++ ("User: " ++ "hi") ++ after)%string /\
    agent_calls (POST example_engine (inr (body_of (map as_json interrupted))) silent no_faults) =
      [query_call (SYSTEM_PROMPT ++ blank_line ++ "Previous conversation:" ++ newline
                     ++ transcript interrupted ++ blank_line ++ "User: " ++ "hi")%string].
Proof.
  split; [reflexivity|]. split; [apply as_json_represents|].
  split; [reflexivity|]. split; [reflexivity|]. split; [reflexivity|].
  apply (assistant_last_repeats_user_turn example_engine (body_of (map as_json interrupted))
           (js := map as_json interrupted) (ms := interrupted)
           (lum := {| role := User; content := "hi" |})
           (final := {| role := Assistant; content := "hello" |}) silent no_faults).
  - reflexivity.
  - apply as_json_represents.
  - reflexivity.
  - reflexivity.
  - reflexivity.
Defined.

(** * Further properties of the handler and the relay *)

(** ** The shape of the stream under any controller *)

Lemma extends_refl st : extends st st.
Proof. split; [reflexivity|]. exists []. rewrite app_nil_r. auto. Qed.

Lemma extends_trans a b c : extends a b -> extends b c -> extends a c.
Proof.
  intros (Hc1 & l1 & Hq1 & Hl1) (Hc2 & l2 & Hq2 & Hl2). split; [congruence|].
  exists (l1 ++ l2). rewrite Hq2, Hq1, app_assoc. split; [reflexivity|].
  apply Forall_app. auto.
Qed.

Lemma extends_update_counters f : always extends (update_counters f).
Proof. intros st. split; [reflexivity|]. exists []. simpl. rewrite app_nil_r. auto. Qed.

Lemma extends_telemetry {A} (m : M Telemetry A) : always extends (telemetry m).
Proof.
  intros st. unfold telemetry. destruct (m (sentry st)). split; [reflexivity|].
  exists []. simpl. rewrite app_nil_r. auto.
Qed.

Lemma extends_pull : always extends pull.
Proof. intros st. split; [reflexivity|]. exists []. simpl. rewrite app_nil_r. auto. Qed.

Lemma extends_enqueue faults c : relayed c -> always extends (enqueue faults c).
Proof.
  intros Hc st. unfold enqueue, controller_call.
  destruct (faults (calls (controller st))); (split; [reflexivity|]); simpl.
  - exists []. rewrite app_nil_r. auto.
  - exists [c]. auto.
Qed.

Lemma always_for_await (R : RelayState -> RelayState -> Prop) body run final :
  (forall st, R st st) -> (forall a b c, R a b -> R b c -> R a c) ->
  always R pull -> (forall m, always R (body m)) ->
  always R (for_await body run final).
Proof.
  intros Hrefl Htrans Hpull Hbody. induction run as [|m rest IH]; cbn [for_await].
  - destruct final; [apply always_ret | apply always_throw]; exact Hrefl.
  - apply always_bind; [exact Htrans | exact Hpull | intros _].
    apply always_bind; [exact Htrans | apply Hbody | intros _; exact IH].
Qed.

(** Walks through a sequence of statements for a relation given by its
    reflexivity, its transitivity and a tactic for the single statements. *)
Ltac stroll refl trans base :=
  repeat first
    [ apply always_ret; apply refl
    | apply always_gets; apply refl
    | apply always_bind; [ apply trans | | intros ? ]
    | apply always_try_catch; [ apply trans | | intros ? ]
    | apply always_for_of; [ apply refl | apply trans | intros [? ?|] ]
    | base ].

Ltac extends_base :=
  first [ apply extends_update_counters | apply extends_telemetry
        | apply extends_enqueue; simpl; auto ].

Lemma relay_event_extends faults m : always extends (relay_event faults m).
Proof.
  unfold relay_event, incr_chunkCount.
  destruct m as [[[[text|]|]|]|[content|]|tool_name elapsed|subtype|];
    cbn [relay_text_delta relay_tool_use relay_tool_progress relay_success relay_failure];
    try destruct (subtype =? "success")%string; cbn [negb];
    unfold incr_textDeltaCount, incr_toolsUsedCount, incr_parseErrorCount;
    stroll extends_refl extends_trans extends_base.
Qed.

Lemma for_await_extends faults run final :
  always extends (for_await (relay_event faults) run final).
Proof.
  apply always_for_await;
    [apply extends_refl | apply extends_trans | apply extends_pull | apply relay_event_extends].
Qed.

(** The stream after [start], whatever the controller does: chunks of the
    loop body, then at most the end marker and at most the error frame of the
    [catch] block, in this order.  [start] returns exactly when a [close] took
    effect. *)
Lemma start_shape faults upstream st :
  let r := start faults upstream st in
  exists added tail,
    queue (controller (snd r)) = queue (controller st) ++ added ++ tail /\
    Forall relayed added /\
    ((fst r = inr tt /\ closed (controller (snd r)) = true /\
      (tail = [DONE_marker] \/ tail = [stream_error] \/ tail = [DONE_marker; stream_error]))
     \/
     ((exists e, fst r = inl e) /\ closed (controller (snd r)) = closed (controller st) /\
      (tail = [] \/ tail = [DONE_marker] \/ tail = [stream_error]
       \/ tail = [DONE_marker; stream_error]))).
Proof.
  cbv zeta. unfold start, relay_try, relay_catch, try_catch.
  destruct (for_await_extends faults (events upstream) (ending upstream) st)
    as (Hc & added & Hq & Hadded).
  unfold bind.
  destruct (for_await _ _ _ st) as [[e|[]] s1]; cbn [snd] in Hc, Hq;
    exists added;
    unfold enqueue, close, controller_call, telemetry, gets,
      Sentry_addBreadcrumb, Sentry_captureException, modify; simpl;
    repeat match goal with
           | |- context [faults ?n] => destruct (faults n)
           end; simpl; rewrite ?Hq, ?Hc, <- ?app_assoc; simpl.
  all: try (exists []; rewrite app_nil_r; split; [reflexivity|]; split; [exact Hadded|];
            right; eauto 10; fail).
  all: try (eexists; split; [reflexivity|]; split; [exact Hadded|]; right; eauto 10; fail).
  all: try (eexists; split; [reflexivity|]; split; [exact Hadded|]; left; eauto 10; fail).
Qed.

Lemma split_at_absent {A} (x : A) l1 l2 before after :
  ~ In x l1 -> l1 ++ l2 = before ++ x :: after ->
  exists t, l2 = t ++ x :: after.
Proof.
  revert before. induction l1 as [|a l1 IH]; intros before Hx Heq.
  - exists before. exact Heq.
  - destruct before as [|b before]; simpl in Heq; injection Heq as Ha Heq.
    + destruct Hx. left. exact Ha.
    + apply (IH before); [|exact Heq]. intros H. apply Hx. right. exact H.
Qed.

Lemma relayed_not_marker added : Forall relayed added -> ~ In DONE_marker added.
Proof. intros H Hin. rewrite Forall_forall in H. exact (H _ Hin). Qed.

(** X1: whatever the upstream yields or throws and whatever the controller
    does, an error frame on the stream carries one of the two fixed texts of
    the handler; the name and message of a thrown error and the subtype of a
    failed result never reach the stream. *)
Theorem error_frames_are_generic (faults : Faults) (upstream : Upstream) (text : string) :
  In (Frame (error_frame text))
     (queue (controller (snd (start faults upstream (initial_state no_telemetry))))) ->
  text = "Stream error occurred"%string \/
  text = "Query did not complete successfully"%string.
Proof.
  destruct (start_shape faults upstream (initial_state no_telemetry))
    as (added & tail & Hq & Hadded & Hcases).
  cbv zeta in Hq. rewrite Hq. cbn [initial_state controller queue app].
  intros Hin. apply in_app_or in Hin. destruct Hin as [Hin|Hin].
  - right. rewrite Forall_forall in Hadded. exact (Hadded _ Hin).
  - left.
    assert (Htail : tail = [] \/ tail = [DONE_marker] \/ tail = [stream_error]
                    \/ tail = [DONE_marker; stream_error])
      by (destruct Hcases as [(_ & _ & [H|[H|H]])|(_ & _ & H)]; auto).
    destruct Htail as [-> | [-> | [-> | ->]]]; unfold stream_error in Hin; simpl in Hin;
      repeat match goal with
             | H : _ \/ _ |- _ => destruct H
             | H : False |- _ => destruct H
             | H : Frame _ = Frame _ |- _ => injection H as H
             | H : DONE_marker = Frame _ |- _ => discriminate H
             end; congruence.
Qed.

Lemma error_frames_are_generic_witness :
  In (Frame (error_frame "Stream error occurred"))
     (queue (controller (snd (start no_faults
        {| events := [result "error_max_turns"];
           ending := Throws (JsError "AbortError" "socket hang up") |}
        (initial_state no_telemetry))))) /\
  ("Stream error occurred"%string = "Stream error occurred"%string \/
   "Stream error occurred"%string = "Query did not complete successfully"%string).
Proof.
  split; [simpl; auto|].
  apply (error_frames_are_generic no_faults
           {| events := [result "error_max_turns"];
              ending := Throws (JsError "AbortError" "socket hang up") |}).
  simpl. auto.
Defined.

(** X2: whatever the upstream and the controller do, the end marker is
    enqueued at most once, and nothing follows it on the stream except, when
    the [close] after it throws, the error frame of the [catch] block: no
    frame of an event ever comes after the marker. *)
Theorem nothing_relayed_after_the_marker (faults : Faults) (upstream : Upstream)
    (before after : list Chunk) :
  queue (controller (snd (start faults upstream (initial_state no_telemetry))))
    = before ++ DONE_marker :: after ->
  ~ In DONE_marker before /\ (after = [] \/ after = [stream_error]).
Proof.
  destruct (start_shape faults upstream (initial_state no_telemetry))
    as (added & tail & Hq & Hadded & Hcases).
  cbv zeta in Hq. rewrite Hq. cbn [initial_state controller queue app].
  intros Heq.
  assert (Htail : tail = [] \/ tail = [DONE_marker] \/ tail = [stream_error]
                  \/ tail = [DONE_marker; stream_error])
    by (destruct Hcases as [(_ & _ & [H|[H|H]])|(_ & _ & H)]; auto).
  destruct (@split_at_absent _ DONE_marker added tail before after
              (@relayed_not_marker added Hadded) Heq) as (t & Ht).
  assert (Hbefore : before = added ++ t).
  { rewrite Ht, app_assoc in Heq. apply app_inv_tail in Heq. symmetry. exact Heq. }
  assert (Hshape : t = [] /\ (after = [] \/ after = [stream_error])).
  { destruct Htail as [-> | [-> | [-> | ->]]];
      destruct t as [|c1 [|c2 [|c3 t]]]; try discriminate Ht;
      injection Ht; intros; subst; auto; discriminate. }
  destruct Hshape as (-> & Hafter). split; [|exact Hafter].
  rewrite Hbefore, app_nil_r. apply relayed_not_marker, Hadded.
Qed.

Lemma nothing_relayed_after_the_marker_witness :
  queue (controller (snd (start no_faults short_answer (initial_state no_telemetry))))
    = [Frame (text_delta_frame "a"); Frame done_frame] ++ DONE_marker :: [] /\
  ~ In DONE_marker [Frame (text_delta_frame "a"); Frame done_frame] /\
  (@nil Chunk = [] \/ @nil Chunk = [stream_error]).
Proof.
  split; [reflexivity|].
  apply (nothing_relayed_after_the_marker no_faults short_answer). reflexivity.
Defined.


(** ** Every way the handler can answer *)

(** The [try] block of the handler ends in one of four ways, and reports no
    exception itself. *)
Lemma POST_try_cases engine request_json upstream faults t :
  let r := POST_try engine request_json upstream faults t in
  exceptions (snd r) = exceptions t /\
  ((exists e, fst r = inl e) \/
   fst r = inr (json_response engine 400 "Messages array is required", []) \/
   fst r = inr (json_response engine 400 "No user message found", []) \/
   (exists p, fst r = inr (stream_response
                             (start faults upstream (initial_state no_telemetry)),
                           [query_call p]))).
Proof.
  cbv zeta. unfold POST_try, bind, lift, Sentry_addBreadcrumb, modify, ret.
  destruct request_json as [e|parsed]; cbn [fst snd]; [eauto|].
  destruct (get engine (Some parsed) "messages") as [e|messages]; cbn [fst snd]; [eauto|].
  destruct (negb (truthy messages) || negb (Array_isArray messages)); cbn [fst snd];
    [simpl; auto|].
  destruct (filterE (is_user engine) (array_items messages)) as [e|users];
    cbn [fst snd]; [eauto|].
  destruct (negb (truthy (pop users))); cbn [fst snd]; [simpl; auto|].
  destruct (conversationContext engine (array_items messages)) as [e|context];
    cbn [fst snd]; [eauto|].
  destruct (fullPrompt engine context (pop users)) as [e|full]; cbn [fst snd]; [eauto|].
  destruct (get engine (pop users) "content") as [e|content]; cbn [fst snd]; [eauto|].
  destruct (read_length engine content) as [e|[]]; cbn [fst snd]; [eauto|].
  simpl. eauto 10.
Qed.

(** X4: whatever the body, the upstream and the controller, the handler
    answers in one of three ways.  A 200 answer is the event stream, with its
    three headers, and goes with exactly one call of the agent, on a prompt
    and the fixed options.  A 400 answer carries one of the two validation
    texts.  A 500 answer carries one fixed text, whatever was thrown, and goes
    with exactly one reported exception.  The agent is never called for a 400
    or a 500 answer, and no exception is reported for a 200 or a 400 one. *)
Theorem handler_answers (engine : Engine) (request_json : Exc json)
    (upstream : Upstream) (faults : Faults) :
  let h := POST engine request_json upstream faults in
  (exists p,
     response h = stream_response (start faults upstream (initial_state no_telemetry)) /\
     agent_calls h = [query_call p] /\ exceptions (handler_telemetry h) = []) \/
  (status (response h) = 400 /\
   headers (response h) = [("Content-Type", "application/json")]%string /\
   (body (response h) = JsonText (error_body "Messages array is required") \/
    body (response h) = JsonText (error_body "No user message found")) /\
   agent_calls h = [] /\ exceptions (handler_telemetry h) = []) \/
  (status (response h) = 500 /\
   headers (response h) = [("Content-Type", "application/json")]%string /\
   body (response h) = JsonText
     (error_body "Failed to process chat request. Check server logs for details.") /\
   agent_calls h = [] /\
   exists e, exceptions (handler_telemetry h) =
               [ {| exception := e; tags := [("error_location", "api_handler")]%string;
                    contexts := [] |} ]).
Proof.
  cbv zeta. unfold POST.
  destruct (POST_try_cases engine request_json upstream faults no_telemetry)
    as (Hex & Hcases).
  cbv zeta in Hex, Hcases.
  destruct (POST_try engine request_json upstream faults no_telemetry) as [r t].
  cbn [fst snd] in Hex, Hcases. cbn [no_telemetry exceptions] in Hex.
  destruct Hcases as [(e & ->)|[->|[->|(p & ->)]]].
  - right. right. cbn [response status headers body json_response agent_calls
                        handler_telemetry record_exception record_breadcrumb exceptions].
    rewrite Hex. repeat split; try reflexivity. exists e. reflexivity.
  - right. left. cbn [response agent_calls handler_telemetry]. rewrite Hex.
    repeat split; try reflexivity. left. reflexivity.
  - right. left. cbn [response agent_calls handler_telemetry]. rewrite Hex.
    repeat split; try reflexivity. right. reflexivity.
  - left. exists p. cbn [response agent_calls handler_telemetry]. auto.
Qed.

Lemma filter_throws_on_null engine js :
  In JNull js -> exists e, filterE (is_user engine) js = inl e.
Proof.
  induction js as [|j rest IH]; [intros []|].
  intros [->|Hin].
  - eexists. reflexivity.
  - destruct (IH Hin) as (e & He). cbn [filterE]. rewrite He.
    destruct (is_user engine j) as [e'|keep]; cbn [ebind]; eauto.
Qed.

(** X5: two ways to a 500 answer that come before any validation.  A body
    that cannot be parsed, [request.json()] throwing, is answered 500 and the
    thrown value is reported once under the tag of the handler.  A [messages]
    array with a [null] entry anywhere, even next to a proper user message, is
    answered 500 too, the filter reading the role of [null].  The agent is
    called in neither case. *)
Theorem server_errors_before_validation (engine : Engine) (upstream : Upstream)
    (faults : Faults) :
  (forall e,
     let h := POST engine (inl e) upstream faults in
     status (response h) = 500 /\ agent_calls h = [] /\
     exceptions (handler_telemetry h) =
       [ {| exception := e; tags := [("error_location", "api_handler")]%string;
            contexts := [] |} ]) /\
  (forall parsed js,
     messages_field parsed = Some (JArr js) -> In JNull js ->
     let h := POST engine (inr parsed) upstream faults in
     status (response h) = 500 /\ agent_calls h = []).
Proof.
  split.
  - intros e. cbv zeta. repeat split; reflexivity.
  - intros parsed js Hfield Hnull. cbv zeta.
    destruct parsed as [| | | | |fields]; try discriminate Hfield.
    cbn [messages_field] in Hfield.
    destruct (filter_throws_on_null engine js Hnull) as (e & He).
    unfold POST, POST_try.
    unfold bind, lift, Sentry_addBreadcrumb, modify, ret.
    cbn [get]. rewrite Hfield. cbn [truthy Array_isArray negb orb array_items].
    rewrite He. split; reflexivity.
Qed.

Lemma server_errors_before_validation_witness :
  messages_field (body_of [chat "user" "hi"; JNull]) = Some (JArr [chat "user" "hi"; JNull]) /\
  In JNull [chat "user" "hi"; JNull] /\
  let h := POST example_engine (inr (body_of [chat "user" "hi"; JNull])) silent no_faults in
  status (response h) = 500 /\ agent_calls h = [].
Proof.
  split; [reflexivity|]. split; [simpl; auto|].
  apply (proj2 (server_errors_before_validation example_engine silent no_faults)
           (body_of [chat "user" "hi"; JNull]) [chat "user" "hi"; JNull]).
  - reflexivity.
  - simpl. auto.
Defined.

(** ** A user turn without content *)

Lemma get_of_entry engine (j : json) key :
  j <> JNull ->
  get engine (Some j) key = inr (match j with JObj fields => own_property key fields | _ => None end).
Proof. destruct j; try reflexivity. congruence. Qed.

(** X6: when the array has no [null] entry and the content of its most recent
    user entry is missing or [null], the answer is 500 and the agent is not
    called: the prompt is assembled, but reading the length of the content
    for the breadcrumb throws. *)
Theorem user_turn_without_content_is_answered_500 (engine : Engine) (parsed : json)
    (js : list json) (lum : json) (upstream : Upstream) (faults : Faults) :
  messages_field parsed = Some (JArr js) ->
  ~ In JNull js ->
  pop (filter has_role_user js) = Some lum ->
  content_of lum = None \/ content_of lum = Some JNull ->
  let h := POST engine (inr parsed) upstream faults in
  status (response h) = 500 /\ agent_calls h = [].
Proof.
  intros Hfield Hnull Hpop Hcontent. cbv zeta.
  destruct parsed as [| | | | |fields]; try discriminate Hfield.
  cbn [messages_field] in Hfield.
  assert (Huser : has_role_user lum = true)
    by (apply pop_In, filter_In in Hpop; apply Hpop).
  destruct lum as [| | | | |lfields]; try discriminate Huser.
  cbn [content_of] in Hcontent.
  unfold POST, POST_try.
  unfold bind, lift, Sentry_addBreadcrumb, modify, ret.
  cbn [get]. rewrite Hfield. cbn [truthy Array_isArray negb orb array_items].
  rewrite (filter_without_null engine js Hnull), Hpop. cbn [truthy negb].
  destruct (conversationContext engine js) as [e|context]; [split; reflexivity|].
  unfold fullPrompt. cbn [get ebind].
  destruct Hcontent as [-> | ->]; cbn [ToString ToString_json ebind read_length];
    split; reflexivity.
Qed.

Lemma user_turn_without_content_is_answered_500_witness :
  messages_field (body_of [JObj [("role", JStr "user")]])
    = Some (JArr [JObj [("role", JStr "user")]]) /\
  ~ In JNull [JObj [("role", JStr "user")]] /\
  pop (filter has_role_user [JObj [("role", JStr "user")]])
    = Some (JObj [("role", JStr "user")]) /\
  (content_of (JObj [("role", JStr "user")]) = None \/
   content_of (JObj [("role", JStr "user")]) = Some JNull) /\
  let h := POST example_engine (inr (body_of [JObj [("role", JStr "user")]])) silent no_faults in
  status (response h) = 500 /\ agent_calls h = [].
Proof.
  split; [reflexivity|]. split; [intros [H|[]]; discriminate H|].
  split; [reflexivity|]. split; [left; reflexivity|].
  apply (user_turn_without_content_is_answered_500 example_engine
           (body_of [JObj [("role", JStr "user")]])
           (js := [JObj [("role", JStr "user")]])
           (lum := JObj [("role", JStr "user")]) silent no_faults).
  - reflexivity.
  - intros [H|[]]; discriminate H.
  - reflexivity.
  - left. reflexivity.
Defined.

(** ** The heading of the transcript *)

Lemma join_not_empty sep x rest :
  x <> EmptyString -> join sep (x :: rest) <> EmptyString.
Proof.
  intros Hx. destruct rest as [|y rest]; [exact Hx|].
  rewrite join_cons. destruct x; [congruence | discriminate].
Qed.

Lemma transcript_line_not_empty m : transcript_line m <> EmptyString.
Proof. unfold transcript_line. destruct (role m); discriminate. Qed.

Lemma transcript_empty_iff ms : transcript ms = EmptyString <-> length ms <= 1.
Proof.
  unfold transcript. destruct ms as [|m1 [|m2 rest]]; cbn [removelast length map].
  - split; [lia | reflexivity].
  - split; [lia | reflexivity].
  - split; [|lia]. intros H. exfalso. revert H.
    apply join_not_empty, transcript_line_not_empty.
Qed.

(** X7: for messages of the declared type, the test of the handler on the
    transcript string is a test on the number of messages.  With a single
    message the prompt is the preamble and the user turn, without the heading
    [Previous conversation:]; with two or more it has the heading and the
    transcript, even when every earlier content is the empty string. *)
Theorem heading_needs_two_messages (engine : Engine) (parsed : json) (js : list json)
    (ms : list MessageInput) (lum : MessageInput) (upstream : Upstream) (faults : Faults) :
  messages_field parsed = Some (JArr js) ->
  Forall2 represents js ms ->
  last_user ms = Some lum ->
  (length ms <= 1 ->
   agent_calls (POST engine (inr parsed) upstream faults) =
     [query_call (SYSTEM_PROMPT ++ blank_line ++ "User: " ++ content lum)%string]) /\
  (2 <= length ms ->
   agent_calls (POST engine (inr parsed) upstream faults) =
     [query_call (SYSTEM_PROMPT ++ blank_line ++ "Previous conversation:" ++ newline
                    ++ transcript ms ++ blank_line ++ "User: " ++ content lum)%string]).
Proof.
  intros Hfield Hjs Hlast.
  destruct (POST_typed engine parsed upstream faults Hfield Hjs Hlast) as (_ & ->).
  unfold assembled.
  destruct (String.eqb_spec (transcript ms) EmptyString) as [Hempty|Hfull].
  - apply transcript_empty_iff in Hempty. split; [reflexivity | lia].
  - split; [|reflexivity]. intros Hlen. destruct Hfull.
    apply transcript_empty_iff. exact Hlen.
Qed.

Lemma heading_needs_two_messages_witness :
  messages_field (body_of (map as_json interrupted)) = Some (JArr (map as_json interrupted)) /\
  Forall2 represents (map as_json interrupted) interrupted /\
  last_user interrupted = Some {| role := User; content := "hi" |} /\
  (length interrupted <= 1 ->
   agent_calls (POST example_engine (inr (body_of (map as_json interrupted))) silent no_faults) =
     [query_call (SYSTEM_PROMPT ++ blank_line ++ "User: " ++ "hi")%string]) /\
  (2 <= length interrupted ->
   agent_calls (POST example_engine (inr (body_of (map as_json interrupted))) silent no_faults) =
     [query_call (SYSTEM_PROMPT ++ blank_line ++ "Previous conversation:" ++ newline
                    ++ transcript interrupted ++ blank_line ++ "User: " ++ "hi")%string]).
Proof.
  split; [reflexivity|]. split; [apply as_json_represents|]. split; [reflexivity|].
  apply (heading_needs_two_messages example_engine (body_of (map as_json interrupted))
           (js := map as_json interrupted) (ms := interrupted)
           (lum := {| role := User; content := "hi" |}) silent no_faults).
  - reflexivity.
  - apply as_json_represents.
  - reflexivity.
Defined.

(** ** The bytes of a chunk *)

Lemma no_control_app a b :
  no_control (a ++ b)%string = no_control a && no_control b.
Proof.
  unfold no_control. induction a as [|c a IH]; [reflexivity|].
  cbn [append list_ascii_of_string forallb]. rewrite IH. apply andb_assoc.
Qed.

Lemma escape_char_no_control c : no_control (escape_char c) = true.
Proof.
  destruct c as [[] [] [] [] [] [] [] []]; vm_compute; reflexivity.
Qed.

Lemma escape_no_control s : no_control (escape s) = true.
Proof.
  induction s as [|c s IH]; [reflexivity|].
  cbn [escape]. now rewrite no_control_app, escape_char_no_control, IH.
Qed.

Lemma JSON_quote_no_control s : no_control (JSON_quote s) = true.
Proof.
  unfold JSON_quote. now rewrite !no_control_app, escape_no_control.
Qed.

(** X8: every chunk is one line on the wire.  If the engine prints numbers
    without control characters, the bytes of a chunk are [data: ], a payload
    without any newline or other control character, and two newlines: a
    newline inside a text delta or a tool name is escaped and cannot break a
    frame in two. *)
Theorem chunk_is_one_line (engine : Engine) (c : Chunk) :
  (forall n, no_control (Number_toString engine n) = true) ->
  exists payload,
    wire engine c = ("data: " ++ payload ++ newline ++ newline)%string /\
    no_control payload = true.
Proof.
  intros Hnumbers. destruct c as [f|].
  - exists (JSON_stringify_object engine (frame_object f)). split; [reflexivity|].
    unfold JSON_stringify_object.
    destruct f as [text|tool|tool elapsed| |text]; cbn [frame_object map fst snd join String.concat JSON_stringify_scalar];
      rewrite ?no_control_app, ?JSON_quote_no_control; try reflexivity.
    destruct (PrimFloat.is_finite elapsed); [rewrite Hnumbers|]; reflexivity.
  - exists "[DONE]"%string. split; reflexivity.
Qed.

Lemma chunk_is_one_line_witness :
  (forall n, no_control (Number_toString example_engine n) = true) /\
  exists payload,
    wire example_engine (Frame (text_delta_frame ("line one" ++ newline ++ "line two")))
      = ("data: " ++ payload ++ newline ++ newline)%string /\
    no_control payload = true.
Proof.
  split; [intros n; reflexivity|].
  apply (chunk_is_one_line example_engine
           (Frame (text_delta_frame ("line one" ++ newline ++ "line two")))).
  intros n. reflexivity.
Defined.

(** ** What the counters count *)

Lemma calm_refl st : calm st st.
Proof. unfold calm. auto. Qed.

Lemma calm_trans a b c : calm a b -> calm b c -> calm a c.
Proof. unfold calm. intros (H1 & H2 & H3) (H4 & H5 & H6). repeat split; congruence. Qed.

Lemma calm_keeps_balance a b : calm a b -> keeps_balance a b.
Proof. unfold calm, keeps_balance, balanced. intros (H1 & H2 & H3) H. rewrite H1, H2, H3. exact H. Qed.

Lemma keeps_balance_refl st : keeps_balance st st.
Proof. unfold keeps_balance. auto. Qed.

Lemma keeps_balance_trans a b c : keeps_balance a b -> keeps_balance b c -> keeps_balance a c.
Proof. unfold keeps_balance. auto. Qed.

Lemma calm_telemetry {A} (m : M Telemetry A) : always calm (telemetry m).
Proof. intros st. unfold telemetry, calm. destruct (m (sentry st)). simpl. auto. Qed.

Lemma calm_enqueue faults c : is_text_frame c = false -> always calm (enqueue faults c).
Proof.
  intros Hc st. unfold enqueue, controller_call, calm.
  destruct (faults (calls (controller st))); simpl; repeat split.
  rewrite filter_app. simpl. rewrite Hc. apply app_nil_r.
Qed.

Lemma calm_close faults : always calm (close faults).
Proof.
  intros st. unfold close, controller_call, calm.
  destruct (faults (calls (controller st))); simpl; auto.
Qed.

Lemma calm_chunkCount : always calm incr_chunkCount.
Proof. intros st. unfold calm. simpl. auto. Qed.

Lemma calm_toolsUsedCount : always calm incr_toolsUsedCount.
Proof. intros st. unfold calm. simpl. auto. Qed.

Lemma calm_pull : always calm pull.
Proof. intros st. unfold calm. simpl. auto. Qed.

Ltac calm_base :=
  first [ apply calm_telemetry | apply calm_chunkCount | apply calm_toolsUsedCount
        | apply calm_close | apply calm_enqueue; reflexivity ].

Lemma calm_tail faults (m : SDKMessage) :
  always calm (relay_tool_use faults m ;; relay_tool_progress faults m ;;
               relay_success faults m ;; relay_failure faults m).
Proof.
  destruct m as [ev|[content|]|tool_name elapsed|subtype|];
    cbn [relay_tool_use relay_tool_progress relay_success relay_failure];
    try destruct (subtype =? "success")%string; cbn [negb];
    stroll calm_refl calm_trans calm_base.
Qed.

(** A text delta is counted and then either enqueued or counted as failed. *)
Lemma text_delta_keeps_balance faults (m : SDKMessage) :
  always keeps_balance (incr_chunkCount ;; relay_text_delta faults m).
Proof.
  intros st.
  destruct m as [[[[text|]|]|]|content|tool_name elapsed|subtype|];
    try (apply calm_keeps_balance; unfold calm; simpl; auto; fail).
  unfold keeps_balance, balanced, relay_text_delta, incr_chunkCount, incr_textDeltaCount,
    incr_parseErrorCount, update_counters, enqueue, controller_call, try_catch, bind, modify,
    telemetry, Sentry_addBreadcrumb; simpl.
  destruct (faults (calls (controller st))) as [e|]; simpl; intros H.
  - lia.
  - rewrite filter_app, length_app. simpl. lia.
Qed.

Lemma relay_event_keeps_balance faults (m : SDKMessage) :
  always keeps_balance (relay_event faults m).
Proof.
  intros st. unfold relay_event.
  pose proof (@text_delta_keeps_balance faults m st) as H1.
  pose proof (calm_tail faults m) as H2.
  unfold bind in *.
  destruct (incr_chunkCount st) as [[e|[]] s0] eqn:E0; [discriminate E0|].
  destruct (relay_text_delta faults m s0) as [[e|[]] s1]; simpl in *; [exact H1|].
  eapply keeps_balance_trans; [exact H1 | apply calm_keeps_balance, (H2 s1)].
Qed.

Lemma start_keeps_balance faults upstream : always keeps_balance (start faults upstream).
Proof.
  assert (Hcalm : forall A (m : M RelayState A), always calm m -> always keeps_balance m)
    by (intros A m; apply always_weaken, calm_keeps_balance).
  unfold start, relay_try, relay_catch.
  apply always_try_catch; [apply keeps_balance_trans| |intros e].
  - apply always_bind; [apply keeps_balance_trans| |intros _].
    + apply always_for_await;
        [apply keeps_balance_refl | apply keeps_balance_trans
        | apply Hcalm, calm_pull | apply relay_event_keeps_balance].
    + apply Hcalm. stroll calm_refl calm_trans calm_base.
  - apply Hcalm. stroll calm_refl calm_trans calm_base.
Qed.

(** X9: whatever the upstream and the controller do, every text delta
    counted is accounted for at the end: [textDeltaCount] is the number of
    text frames on the stream plus [parseErrorCount].  No text delta is lost
    without being counted as a failed encoding. *)
Theorem text_deltas_are_sent_or_counted (faults : Faults) (upstream : Upstream) :
  let final := snd (start faults upstream (initial_state no_telemetry)) in
  textDeltaCount (counters final) =
  length (filter is_text_frame (queue (controller final))) + parseErrorCount (counters final).
Proof.
  cbv zeta. apply (@start_keeps_balance faults upstream (initial_state no_telemetry)).
  reflexivity.
Qed.

(** ** The counters when every call is accepted *)

Lemma bind_returned {A B} (m : M RelayState A) (k : A -> M RelayState B) st a st1 :
  m st = (inr a, st1) -> bind m k st = k a st1.
Proof. intros H. unfold bind. rewrite H. reflexivity. Qed.

Lemma tool_blocks_tally (content : list ContentBlock) (st : RelayState) :
  counters (snd (relay_tool_use no_faults (assistant (Some content)) st)) =
  {| chunkCount := chunkCount (counters st);
     textDeltaCount := textDeltaCount (counters st);
     toolsUsedCount := tool_uses (assistant (Some content)) + toolsUsedCount (counters st);
     parseErrorCount := parseErrorCount (counters st) |}.
Proof.
  revert st. induction content as [|block rest IH]; intros st.
  - simpl. destruct (counters st); reflexivity.
  - cbn [relay_tool_use for_of] in *. destruct block as [id name|].
    + erewrite bind_returned by reflexivity. rewrite IH. simpl. f_equal. lia.
    + erewrite bind_returned by reflexivity. rewrite IH. reflexivity.
Qed.

Lemma relay_event_tally (m : SDKMessage) (st : RelayState) :
  counters (snd (relay_event no_faults m st)) = tally (counters st) m.
Proof.
  unfold relay_event.
  destruct m as [[[[text|]|]|]|[blocks|]|tool_name elapsed|subtype|];
    try (unfold tally; simpl; try destruct (subtype =? "success")%string;
         reflexivity).
  erewrite bind_returned by reflexivity.
  erewrite bind_returned by reflexivity.
  destruct (tool_blocks_accepted blocks (snd (incr_chunkCount st))) as (Hr & _).
  pose proof (tool_blocks_tally blocks (snd (incr_chunkCount st))) as Ht.
  unfold bind at 1.
  destruct (relay_tool_use no_faults (assistant (Some blocks)) _) as [[e|[]] s1];
    cbn [fst snd] in *; [discriminate|].
  simpl. rewrite Ht. reflexivity.
Qed.

Lemma for_await_tally (run : list SDKMessage) (final : Ending) (st : RelayState) :
  counters (snd (for_await (relay_event no_faults) run final st)) =
  fold_left tally run (counters st).
Proof.
  revert st. induction run as [|m rest IH]; intros st.
  - destruct final; reflexivity.
  - cbn [for_await fold_left]. unfold bind. cbn [pull modify].
    destruct (relay_event_accepted m (snd (pull st))) as (Hr & _).
    pose proof (relay_event_tally m (snd (pull st))) as Ht.
    cbn [pull modify snd] in Hr, Ht.
    destruct (relay_event no_faults m _) as [[e|[]] s1]; cbn [fst snd] in *; [discriminate|].
    rewrite IH, Ht. reflexivity.
Qed.

Lemma fold_tally (run : list SDKMessage) (c : Counters) :
  fold_left tally run c =
  {| chunkCount := length run + chunkCount c;
     textDeltaCount := length (filter is_text_delta run) + textDeltaCount c;
     toolsUsedCount := list_sum (map tool_uses run) + toolsUsedCount c;
     parseErrorCount := parseErrorCount c |}.
Proof.
  revert c. induction run as [|m rest IH]; intros c.
  - destruct c; reflexivity.
  - cbn [fold_left]. rewrite IH. unfold tally. simpl.
    destruct (is_text_delta m); simpl; f_equal; lia.
Qed.

Lemma start_counters faults upstream st :
  counters (snd (start faults upstream st)) =
  counters (snd (for_await (relay_event faults) (events upstream) (ending upstream) st)).
Proof.
  unfold start, relay_try, relay_catch, try_catch, bind.
  destruct (for_await _ _ _ st) as [[e|[]] s1];
    unfold enqueue, close, controller_call, telemetry, gets,
      Sentry_addBreadcrumb, Sentry_captureException, modify; simpl;
    repeat match goal with
           | |- context [faults ?n] => destruct (faults n)
           end; reflexivity.
Qed.

(** X10: when the controller accepts every call, the counters at the end of
    the run are the number of events, the number of text-delta events, the
    number of tool-use blocks in all assistant messages, and zero failed
    encodings; this holds whether the iteration is exhausted or throws. *)
Theorem counters_of_an_accepted_run (run : list SDKMessage) (final : Ending) :
  counters (snd (start no_faults {| events := run; ending := final |}
                   (initial_state no_telemetry))) =
  {| chunkCount := length run;
     textDeltaCount := length (filter is_text_delta run);
     toolsUsedCount := list_sum (map tool_uses run);
     parseErrorCount := 0 |}.
Proof.
  rewrite start_counters. cbn [events ending].
  rewrite for_await_tally, fold_tally. simpl. now rewrite !Nat.add_0_r.
Qed.

(** ** The prompt for entries of any shape *)

Lemma is_user_value engine (j : json) :
  j <> JNull -> is_user engine j = inr (has_role_user j).
Proof. destruct j; try reflexivity. congruence. Qed.

Lemma filter_returned engine js users :
  filterE (is_user engine) js = inr users ->
  ~ In JNull js /\ users = filter has_role_user js.
Proof.
  revert users. induction js as [|j rest IH]; intros users.
  - intros [= <-]. auto.
  - cbn [filterE filter].
    destruct j; try discriminate;
      (rewrite is_user_value by discriminate; cbn [ebind];
       destruct (filterE (is_user engine) rest) as [e|kept]; cbn [ebind]; [discriminate|];
       intros [= <-]; destruct (IH kept eq_refl) as (Hnull & ->);
       split; [intros [H|H]; [discriminate H | auto] | reflexivity]).
Qed.

Lemma render_line engine (j : json) line :
  j <> JNull -> render engine j = inr line -> line_of engine j line.
Proof.
  intros Hj. unfold render, line_of, label.
  rewrite !get_of_entry by exact Hj. cbn [ebind].
  fold (content_of j).
  replace (strict_eq_string match j with JObj fields => own_property "role" fields | _ => None end "user")
    with (has_role_user j) by (destruct j; reflexivity).
  destruct (ToString engine (content_of j)) as [e|text]; cbn [ebind]; [discriminate|].
  intros [= <-]. eauto.
Qed.

Lemma map_returned engine l lines :
  ~ In JNull l -> mapE (render engine) l = inr lines -> Forall2 (line_of engine) l lines.
Proof.
  revert lines. induction l as [|j rest IH]; intros lines Hnull.
  - intros [= <-]. constructor.
  - cbn [mapE]. destruct (render engine j) as [e|line] eqn:Hline; cbn [ebind]; [discriminate|].
    destruct (mapE (render engine) rest) as [e|more]; cbn [ebind]; [discriminate|].
    intros [= <-]. constructor.
    + apply render_line; [|exact Hline]. intros ->. apply Hnull. left. reflexivity.
    + apply IH; [|reflexivity]. intros H. apply Hnull. right. exact H.
Qed.

Lemma In_removelast {A} (a : A) l : In a (removelast l) -> In a l.
Proof.
  induction l as [|b [|c l] IH]; simpl; [auto | intros [] |].
  intros [H|H]; [auto|]. right. apply IH. exact H.
Qed.

(** X24: whenever the agent is called, for entries of any shape, the prompt
    is the preamble, the transcript under its heading when it is not empty,
    and [User: ] with the string conversion of the content of the last entry
    whose role is [user].  Each entry but the last of the array gives one
    line of the transcript; it is labelled [User] when its role is the string
    [user] and [Assistant] in every other case, a missing role or the role
    [system] included. *)
Theorem prompt_of_any_entries (engine : Engine) (parsed : json) (js : list json)
    (p : string) (upstream : Upstream) (faults : Faults) :
  messages_field parsed = Some (JArr js) ->
  map prompt (agent_calls (POST engine (inr parsed) upstream faults)) = [p] ->
  exists lum text lines,
    pop (filter has_role_user js) = Some lum /\
    ToString engine (content_of lum) = inr text /\
    Forall2 (line_of engine) (removelast js) lines /\
    p = if (join blank_line lines =? EmptyString)%string
        then (SYSTEM_PROMPT ++ blank_line ++ "User: " ++ text)%string
        else (SYSTEM_PROMPT ++ blank_line ++ "Previous conversation:" ++ newline
                ++ join blank_line lines ++ blank_line ++ "User: " ++ text)%string.
Proof.
  intros Hfield.
  destruct parsed as [| | | | |fields]; try discriminate Hfield.
  cbn [messages_field] in Hfield.
  unfold POST, POST_try.
  unfold bind, lift, Sentry_addBreadcrumb, modify, ret.
  cbn [get]. rewrite Hfield. cbn [truthy Array_isArray negb orb array_items].
  destruct (filterE (is_user engine) js) as [e|users] eqn:Hfilter; [discriminate|].
  apply filter_returned in Hfilter. destruct Hfilter as (Hnull & ->).
  destruct (pop (filter has_role_user js)) as [lum|] eqn:Hpop; [|discriminate].
  assert (Huser : has_role_user lum = true)
    by (apply pop_In, filter_In in Hpop; apply Hpop).
  destruct lum as [| | | | |lfields]; try discriminate Huser.
  cbn [truthy negb].
  unfold conversationContext. rewrite slice_all_but_last.
  destruct (mapE (render engine) (removelast js)) as [e|lines] eqn:Hlines;
    cbn [ebind]; [discriminate|].
  apply map_returned in Hlines;
    [|intros H; apply Hnull; apply In_removelast; exact H].
  unfold fullPrompt. cbn [get ebind].
  destruct (ToString engine (own_property "content" lfields)) as [e|text] eqn:Htext;
    cbn [ebind]; [discriminate|].
  destruct (read_length engine (own_property "content" lfields)) as [e|[]];
    [discriminate|].
  cbn [agent_calls map prompt query_call]. intros [= <-].
  exists (JObj lfields), text, lines. repeat split; auto.
  destruct (join blank_line lines =? EmptyString)%string; reflexivity.
Qed.

Lemma prompt_of_any_entries_witness :
  let entries := [JObj [("role", JStr "system"); ("content", JStr "be brief")];
                  JObj [("role", JStr "user"); ("content", JBool true)]]%string in
  messages_field (body_of entries) = Some (JArr entries) /\
  map prompt (agent_calls (POST example_engine (inr (body_of entries)) silent no_faults))
    = [(SYSTEM_PROMPT ++ blank_line ++ "Previous conversation:" ++ newline
          ++ "Assistant: be brief" ++ blank_line ++ "User: true")%string] /\
  exists lum text lines,
    pop (filter has_role_user entries) = Some lum /\
    ToString example_engine (content_of lum) = inr text /\
    Forall2 (line_of example_engine) (removelast entries) lines /\
    (SYSTEM_PROMPT ++ blank_line ++ "Previous conversation:" ++ newline
       ++ "Assistant: be brief" ++ blank_line ++ "User: true")%string
    = if (join blank_line lines =? EmptyString)%string
      then (SYSTEM_PROMPT ++ blank_line ++ "User: " ++ text)%string
      else (SYSTEM_PROMPT ++ blank_line ++ "Previous conversation:" ++ newline
              ++ join blank_line lines ++ blank_line ++ "User: " ++ text)%string.
Proof.
  cbv zeta. split; [reflexivity|]. split; [reflexivity|].
  apply (@prompt_of_any_entries example_engine
           (body_of [JObj [("role", JStr "system"); ("content", JStr "be brief")];
                     JObj [("role", JStr "user"); ("content", JBool true)]]%string)
           [JObj [("role", JStr "system"); ("content", JStr "be brief")];
            JObj [("role", JStr "user"); ("content", JBool true)]]%string
           _ silent no_faults).
  - reflexivity.
  - reflexivity.
Defined.

(** * Properties of the window manager *)

Module WindowManagerFacts.
Import WindowManager.

Section Facts.
Variable Rest : Type.

Lemma length_filter_map {A B} (p : B -> bool) (f : A -> B) (l : list A) :
  length (filter p (map f l)) = length (filter (fun a => p (f a)) l).
Proof.
  induction l as [|a l IH]; [reflexivity|]. simpl.
  destruct (p (f a)); simpl; now rewrite IH.
Qed.

Lemma length_filter_le {A} (p q : A -> bool) (l : list A) :
  (forall a, q a = true -> p a = true) ->
  length (filter q l) <= length (filter p l).
Proof.
  intros H. induction l as [|a l IH]; [reflexivity|]. simpl.
  destruct (q a) eqn:Hq.
  - rewrite (H a Hq). simpl. lia.
  - destruct (p a); simpl; lia.
Qed.

Lemma find_window_none (target : string) (l : list (WindowState Rest)) :
  find_window target l = None <-> ~ In target (map id l).
Proof.
  unfold find_window. induction l as [|w l IH]; simpl.
  - split; auto.
  - destruct (String.eqb_spec (id w) target) as [Heq|Hne].
    + split; [discriminate|]. intros H. destruct H. auto.
    + rewrite IH. split; [intros H [H1|H1]; auto | intros H H1; apply H; auto].
Qed.

Lemma find_window_some (target : string) (l : list (WindowState Rest)) (w : WindowState Rest) :
  find_window target l = Some w -> In w l /\ id w = target.
Proof.
  unfold find_window. intros H. apply find_some in H.
  destruct H as [Hin Heq]. split; [exact Hin|]. now apply String.eqb_eq.
Qed.

Lemma unique_by_id (target : string) (l : list (WindowState Rest)) :
  NoDup (map id l) -> length (filter (fun w => id w =? target) l) <= 1.
Proof.
  induction l as [|w l IH]; simpl; [lia|].
  intros Hnd. inversion Hnd as [|? ? Hnotin Hnd']; subst.
  destruct (String.eqb_spec (id w) target) as [Heq|Hne]; [|auto].
  simpl. enough (Hnone : filter (fun v => id v =? target) l = []) by (rewrite Hnone; simpl; lia).
  destruct (filter (fun v => id v =? target) l) as [|v rest] eqn:Hf; [reflexivity|].
  exfalso. apply Hnotin.
  assert (Hv : In v (filter (fun v => id v =? target) l)) by (rewrite Hf; left; reflexivity).
  apply filter_In in Hv. destruct Hv as [Hin Hid].
  apply String.eqb_eq in Hid. rewrite Heq, <- Hid. apply in_map, Hin.
Qed.

Lemma map_keeps_ids (f : WindowState Rest -> WindowState Rest) (l : list (WindowState Rest)) :
  (forall w, id (f w) = id w) -> map id (map f l) = map id l.
Proof. intros H. rewrite map_map. apply map_ext. exact H. Qed.

Lemma raised_id restoring target z (w : WindowState Rest) : id (raised restoring target z w) = id w.
Proof. unfold raised. destruct (id w =? target), restoring; reflexivity. Qed.

Lemma raised_focus restoring target z (w : WindowState Rest) :
  isFocused (raised restoring target z w) = (id w =? target).
Proof. unfold raised. destruct (id w =? target), restoring; reflexivity. Qed.

Lemma raised_zIndex restoring target z (w : WindowState Rest) :
  zIndex (raised restoring target z w) = if id w =? target then z else zIndex w.
Proof. unfold raised. destruct (id w =? target), restoring; reflexivity. Qed.

(** The windows after [focusWindow], [restoreWindow] and [openWindow] on an
    id that is present. *)
Lemma focusWindow_windows target (m : Manager Rest) :
  windows (focusWindow target m) = map (raised false target (topZIndex m + 1)) (windows m).
Proof. reflexivity. Qed.

Lemma restoreWindow_windows target (m : Manager Rest) :
  windows (restoreWindow target m) = map (raised true target (topZIndex m + 1)) (windows m).
Proof. reflexivity. Qed.

Lemma openWindow_present window (m : Manager Rest) :
  In (new_id window) (map id (windows m)) ->
  exists restoring,
    windows (openWindow window m)
      = map (raised restoring (new_id window) (topZIndex m + 1)) (windows m) /\
    topZIndex (openWindow window m) = topZIndex m + 1.
Proof.
  intros Hin. unfold openWindow.
  destruct (find_window (new_id window) (windows m)) as [existing|] eqn:Hfind.
  - destruct (isMinimized existing); [exists true | exists false]; split; reflexivity.
  - apply find_window_none in Hfind. contradiction.
Qed.

Lemma raised_well_formed restoring target (m : Manager Rest) :
  well_formed m ->
  well_formed {| windows := map (raised restoring target (topZIndex m + 1)) (windows m);
                 topZIndex := topZIndex m + 1; log := log m |}.
Proof.
  intros (Hids & Hz & Hfocus & Htop). unfold well_formed. cbn [windows topZIndex].
  repeat split.
  - rewrite map_keeps_ids by apply raised_id. exact Hids.
  - rewrite Forall_forall in *. intros w' Hin. apply in_map_iff in Hin.
    destruct Hin as (w & <- & Hin). rewrite raised_zIndex.
    destruct (id w =? target); [lia|]. specialize (Hz w Hin). simpl in Hz. lia.
  - rewrite length_filter_map.
    erewrite filter_ext by (intros w; apply raised_focus).
    apply unique_by_id, Hids.
  - lia.
Qed.

Lemma same_windows_well_formed (m m' : Manager Rest) :
  well_formed m -> map id (windows m') = map id (windows m) ->
  Forall (fun w => zIndex w <= topZIndex m') (windows m') ->
  length (filter isFocused (windows m')) <= length (filter isFocused (windows m)) ->
  topZIndex m <= topZIndex m' ->
  well_formed m'.
Proof.
  intros (Hids & Hz & Hfocus & Htop) Hsame Hz' Hf' Ht'. unfold well_formed.
  rewrite Hsame. repeat split; auto; lia.
Qed.

Lemma mapped_well_formed (f : WindowState Rest -> WindowState Rest) (m : Manager Rest) crumbs :
  well_formed m ->
  (forall w, id (f w) = id w) -> (forall w, zIndex (f w) = zIndex w) ->
  (forall w, isFocused (f w) = true -> isFocused w = true) ->
  well_formed {| windows := map f (windows m); topZIndex := topZIndex m; log := crumbs |}.
Proof.
  intros Hwf Hid Hzf Hff. apply (@same_windows_well_formed m _ Hwf); cbn [windows topZIndex].
  - apply map_keeps_ids, Hid.
  - destruct Hwf as (_ & Hz & _). rewrite Forall_forall in *. intros w' Hin.
    apply in_map_iff in Hin. destruct Hin as (w & <- & Hin). rewrite Hzf. apply Hz, Hin.
  - rewrite length_filter_map. apply length_filter_le. exact Hff.
  - lia.
Qed.

Lemma filter_keeps_ids_distinct (keep : WindowState Rest -> bool)
    (ws : list (WindowState Rest)) :
  NoDup (map id ws) -> NoDup (map id (filter keep ws)).
Proof.
  intros Hids. induction ws as [|w ws IH]; cbn [filter map]; [constructor|].
  cbn [map] in Hids. apply NoDup_cons_iff in Hids. destruct Hids as (Hfresh & Hrest).
  destruct (keep w); cbn [map]; [|exact (IH Hrest)].
  apply NoDup_cons; [|exact (IH Hrest)].
  rewrite in_map_iff. intros (w' & Hid & Hin).
  apply filter_In in Hin. apply Hfresh. rewrite <- Hid. apply in_map, Hin.
Qed.

Lemma perform_well_formed (m : Manager Rest) (c : Call Rest) :
  well_formed m -> well_formed (perform m c).
Proof.
  intros Hwf. destruct c as [window|target|target|target|target|target|target px py|target sw sh];
    cbn [perform].
  - (* openWindow *)
    unfold openWindow.
    destruct (find_window (new_id window) (windows m)) as [existing|] eqn:Hfind.
    + destruct (isMinimized existing).
      * destruct (raised_well_formed true (new_id window) Hwf) as (H1 & H2 & H3 & H4).
        repeat split; assumption.
      * destruct (raised_well_formed false (new_id window) Hwf) as (H1 & H2 & H3 & H4).
        repeat split; assumption.
    + apply find_window_none in Hfind.
      destruct Hwf as (Hids & Hz & Hfocus & Htop). unfold well_formed. cbn [windows topZIndex].
      repeat split.
      * rewrite map_app, map_keeps_ids by reflexivity. simpl.
        apply NoDup_app; [exact Hids | repeat constructor; simpl; tauto |].
        intros t Hin [<-|[]]. contradiction.
      * apply Forall_app. split.
        -- rewrite Forall_forall in *. intros w' Hin. apply in_map_iff in Hin.
           destruct Hin as (w & <- & Hin). specialize (Hz w Hin). simpl in *. lia.
        -- constructor; [simpl; lia | constructor].
      * rewrite filter_app, length_app, length_filter_map.
        assert (Hnone : forall l : list (WindowState Rest),
                   length (filter (fun a => isFocused (with_isFocused false a)) l) = 0)
          by (intros l; induction l; simpl; auto).
        rewrite Hnone. simpl. lia.
      * lia.
  - (* closeWindow *)
    destruct Hwf as (Hids & Hz & Hfocus & Htop). unfold well_formed, closeWindow.
    cbn [windows topZIndex]. repeat split.
    + apply filter_keeps_ids_distinct, Hids.
    + rewrite Forall_forall in *. intros w Hin. apply filter_In in Hin. apply Hz, Hin.
    + rewrite <- (length_filter_map isFocused (fun w => w)), map_id in Hfocus.
      assert (Hle : forall l : list (WindowState Rest),
                 length (filter isFocused (filter (fun w => negb (id w =? target)) l))
                 <= length (filter isFocused l)).
      { intros l. induction l as [|w l IH]; simpl; [lia|].
        destruct (negb (id w =? target)); simpl; destruct (isFocused w); simpl; lia. }
      specialize (Hle (windows m)). lia.
    + exact Htop.
  - (* minimizeWindow *)
    apply mapped_well_formed; [exact Hwf| | |]; intros w; destruct (id w =? target);
      (reflexivity || auto). discriminate.
  - (* maximizeWindow *)
    apply mapped_well_formed; [exact Hwf| | |]; intros w; destruct (id w =? target);
      (reflexivity || auto).
  - (* restoreWindow *)
    destruct (raised_well_formed true target Hwf) as (H1 & H2 & H3 & H4).
    repeat split; assumption.
  - (* focusWindow *)
    destruct (raised_well_formed false target Hwf) as (H1 & H2 & H3 & H4).
    repeat split; assumption.
  - (* updateWindowPosition *)
    apply mapped_well_formed; [exact Hwf| | |]; intros w; destruct (id w =? target);
      (reflexivity || auto).
  - (* updateWindowSize *)
    apply mapped_well_formed; [exact Hwf| | |]; intros w; destruct (id w =? target);
      (reflexivity || auto).
Qed.

Lemma initial_well_formed : well_formed (initial Rest).
Proof. unfold well_formed, initial. simpl. repeat split; auto; constructor. Qed.

Lemma after_well_formed (calls : list (Call Rest)) : well_formed (after calls).
Proof.
  unfold after. generalize (initial_well_formed). generalize (initial Rest).
  induction calls as [|c calls IH]; intros m Hm; [exact Hm|].
  cbn [fold_left]. apply IH, perform_well_formed, Hm.
Qed.


Lemma find_window_map target (f : WindowState Rest -> WindowState Rest)
    (l : list (WindowState Rest)) :
  (forall w, id (f w) = id w) ->
  find_window target (map f l) = option_map f (find_window target l).
Proof.
  intros Hid. unfold find_window. induction l as [|w l IH]; [reflexivity|].
  simpl. rewrite Hid. destruct (id w =? target); [reflexivity | exact IH].
Qed.

Lemma raised_on_top restoring target (m : Manager Rest) :
  well_formed m -> In target (map id (windows m)) ->
  on_top target {| windows := map (raised restoring target (topZIndex m + 1)) (windows m);
                   topZIndex := topZIndex m + 1; log := log m |}.
Proof.
  intros (_ & Hz & _) Hin. unfold on_top. cbn [windows topZIndex]. split.
  - apply in_map_iff in Hin. destruct Hin as (w & Hid & Hin).
    exists (raised restoring target (topZIndex m + 1) w). split.
    + apply in_map, Hin.
    + rewrite raised_id. exact Hid.
  - intros w' Hin'. apply in_map_iff in Hin'. destruct Hin' as (w & <- & Hw).
    rewrite raised_id, raised_focus, raised_zIndex.
    rewrite Forall_forall in Hz. specialize (Hz w Hw). simpl in Hz.
    destruct (String.eqb_spec (id w) target) as [Heq|Hne]; split; intros H;
      try contradiction; split; auto; lia.
Qed.

Lemma on_top_same (target : string) (m m' : Manager Rest) :
  windows m' = windows m -> topZIndex m' = topZIndex m -> on_top target m -> on_top target m'.
Proof. unfold on_top. intros -> ->. auto. Qed.

End Facts.

(** X11: in every state the provider can reach from its initial state, by
    any sequence of its eight operations with any arguments, the windows have
    distinct ids, at most one window is focused, no window lies above
    [topZIndex], and [topZIndex] is at least its initial value, 100. *)
Theorem reachable_states_are_well_formed (Rest : Type) (calls : list (Call Rest)) :
  NoDup (map id (windows (after calls))) /\
  length (filter isFocused (windows (after calls))) <= 1 /\
  Forall (fun w => zIndex w <= topZIndex (after calls)) (windows (after calls)) /\
  100 <= topZIndex (after calls).
Proof.
  destruct (after_well_formed calls) as (H1 & H2 & H3 & H4). auto.
Qed.

(** X12: in a reachable state, [focusWindow] and [restoreWindow] on the id of
    an open window, and [openWindow] on a window whose id is already open,
    leave that window focused and strictly above every other window, and no
    other window focused. *)
Theorem raising_puts_the_window_on_top (Rest : Type) (calls : list (Call Rest))
    (window : NewWindow Rest) :
  In (new_id window) (map id (windows (after calls))) ->
  on_top (new_id window) (focusWindow (new_id window) (after calls)) /\
  on_top (new_id window) (restoreWindow (new_id window) (after calls)) /\
  on_top (new_id window) (openWindow window (after calls)).
Proof.
  intros Hin. pose proof (after_well_formed calls) as Hwf.
  split; [|split].
  - apply (raised_on_top false _ Hwf Hin).
  - apply (raised_on_top true _ Hwf Hin).
  - destruct (openWindow_present window (after calls) Hin) as (restoring & Hw & Ht).
    eapply on_top_same; [| |apply (raised_on_top restoring _ Hwf Hin)].
    + exact Hw.
    + exact Ht.
Qed.

Lemma raising_puts_the_window_on_top_witness :
  In (new_id notes) (map id (windows (after [Open notes; Open chat_window]))) /\
  on_top (new_id notes) (focusWindow (new_id notes) (after [Open notes; Open chat_window])) /\
  on_top (new_id notes) (restoreWindow (new_id notes) (after [Open notes; Open chat_window])) /\
  on_top (new_id notes) (openWindow notes (after [Open notes; Open chat_window])).
Proof.
  split; [simpl; auto|].
  apply (raising_puts_the_window_on_top [Open notes; Open chat_window] notes).
  simpl. auto.
Defined.

(** X13: [focusWindow] and [restoreWindow] on an id that no window has take
    the focus from every window, advance [topZIndex] by one and record no
    breadcrumb; nothing else changes. *)
Theorem raising_an_unknown_window_blurs_all (Rest : Type) (m : Manager Rest)
    (target : string) :
  ~ In target (map id (windows m)) ->
  focusWindow target m =
    {| windows := map (with_isFocused false) (windows m);
       topZIndex := topZIndex m + 1; log := log m |} /\
  restoreWindow target m = focusWindow target m.
Proof.
  intros Hnot.
  assert (Hmap : forall restoring,
             map (raised restoring target (topZIndex m + 1)) (windows m)
             = map (with_isFocused false) (windows m)).
  { intros restoring. apply map_ext_in. intros w Hw. unfold raised.
    destruct (String.eqb_spec (id w) target) as [Heq|Hne]; [|reflexivity].
    destruct Hnot. rewrite <- Heq. apply in_map, Hw. }
  apply find_window_none in Hnot.
  unfold focusWindow, restoreWindow. cbv zeta. rewrite Hnot. cbn [noted]. split.
  - f_equal. exact (Hmap false).
  - f_equal. exact (eq_trans (Hmap true) (eq_sym (Hmap false))).
Qed.

Lemma raising_an_unknown_window_blurs_all_witness :
  ~ In "ghost"%string (map id (windows (after [Open notes]))) /\
  focusWindow "ghost" (after [Open notes]) =
    {| windows := map (with_isFocused false) (windows (after [Open notes]));
       topZIndex := topZIndex (after [Open notes]) + 1; log := log (after [Open notes]) |} /\
  restoreWindow "ghost" (after [Open notes]) = focusWindow "ghost" (after [Open notes]).
Proof.
  split; [simpl; intros [H|[]]; discriminate H|].
  apply (@raising_an_unknown_window_blurs_all unit (after [Open notes]) "ghost").
  simpl. intros [H|[]]; discriminate H.
Defined.


Lemma map_unchanged {A} (f : A -> A) (l : list A) :
  (forall a, In a l -> f a = a) -> map f l = l.
Proof.
  intros H. rewrite <- (map_id l) at 2. apply map_ext_in. exact H.
Qed.

(** X14: [maximizeWindow] is its own inverse on the windows: called twice on
    the same id it gives back every window as it was, and it never moves
    [topZIndex] or the focus. *)
Theorem maximizing_twice_changes_nothing (Rest : Type) (m : Manager Rest) (target : string) :
  windows (maximizeWindow target (maximizeWindow target m)) = windows m /\
  topZIndex (maximizeWindow target (maximizeWindow target m)) = topZIndex m /\
  map isFocused (windows (maximizeWindow target m)) = map isFocused (windows m) /\
  map zIndex (windows (maximizeWindow target m)) = map zIndex (windows m).
Proof.
  unfold maximizeWindow. cbn [windows topZIndex]. repeat split.
  - rewrite map_map. apply map_unchanged. intros w _.
    destruct (id w =? target) eqn:Hid; [|rewrite Hid; reflexivity].
    cbn [id with_isMaximized]. rewrite Hid. destruct w as [? ? ? ? ? ? ? []]; reflexivity.
  - rewrite map_map. apply map_ext. intros w. destruct (id w =? target); reflexivity.
  - rewrite map_map. apply map_ext. intros w. destruct (id w =? target); reflexivity.
Qed.

(** X15: [closeWindow] removes the windows with the given id and nothing
    else: every other window stays as it was and in its place, [topZIndex]
    does not move, and on an id that no window has the state does not change
    at all, no breadcrumb being recorded. *)
Theorem closing_removes_only_the_target (Rest : Type) (m : Manager Rest) (target : string) :
  (forall w, In w (windows (closeWindow target m)) <-> In w (windows m) /\ id w <> target) /\
  topZIndex (closeWindow target m) = topZIndex m /\
  (~ In target (map id (windows m)) -> closeWindow target m = m).
Proof.
  split; [|split].
  - intros w. unfold closeWindow. cbn [windows]. rewrite filter_In.
    destruct (String.eqb_spec (id w) target); simpl; intuition congruence.
  - reflexivity.
  - intros Hnot. unfold closeWindow. cbv zeta.
    assert (Hfilter : filter (fun w => negb (id w =? target)) (windows m) = windows m).
    { apply forallb_filter_id. apply forallb_forall. intros w Hw.
      destruct (String.eqb_spec (id w) target) as [Heq|Hne]; [|reflexivity].
      destruct Hnot. rewrite <- Heq. apply in_map, Hw. }
    apply find_window_none in Hnot. rewrite Hnot, Hfilter. destruct m; reflexivity.
Qed.

(** X16: in a reachable state, closing the focused window leaves no window
    focused: the focus is not handed to another window. *)
Theorem closing_the_focused_window_leaves_no_focus (Rest : Type) (calls : list (Call Rest))
    (w : WindowState Rest) :
  In w (windows (after calls)) -> isFocused w = true ->
  filter isFocused (windows (closeWindow (id w) (after calls))) = [].
Proof.
  intros Hin Hfocused.
  destruct (after_well_formed calls) as (_ & _ & Hone & _).
  unfold closeWindow. cbn [windows].
  destruct (filter isFocused (filter (fun v => negb (id v =? id w)) (windows (after calls))))
    as [|v rest'] eqn:Hf; [reflexivity|]. exfalso.
  assert (Hv : In v (filter isFocused
                       (filter (fun v => negb (id v =? id w)) (windows (after calls)))))
    by (rewrite Hf; left; reflexivity).
  apply filter_In in Hv. destruct Hv as [Hv Hvf]. apply filter_In in Hv.
  destruct Hv as [Hv Hne].
  assert (Hvw : v <> w).
  { intros ->. rewrite String.eqb_refl in Hne. discriminate. }
  assert (Hboth : incl [v; w] (filter isFocused (windows (after calls)))).
  { intros u [<-|[<-|[]]]; apply filter_In; auto. }
  assert (Hnd : NoDup [v; w]).
  { constructor; [intros [H|[]]; auto | constructor; [intros [] | constructor]]. }
  pose proof (NoDup_incl_length Hnd Hboth) as Hlen. simpl in Hlen. lia.
Qed.

Lemma closing_the_focused_window_leaves_no_focus_witness :
  let m := after [Open notes; Open chat_window] in
  In (placed chat_window 102 true) (windows m) /\
  isFocused (placed chat_window 102 true) = true /\
  map id (windows m) = ["notes"; "chat"]%string /\
  map id (windows (closeWindow "chat" m)) = ["notes"]%string /\
  filter isFocused (windows (closeWindow (id (placed chat_window 102 true)) m)) = [].
Proof.
  cbv zeta. split; [simpl; auto|]. split; [reflexivity|].
  split; [reflexivity|]. split; [reflexivity|].
  apply (@closing_the_focused_window_leaves_no_focus unit [Open notes; Open chat_window]
           (placed chat_window 102 true)).
  - simpl. auto.
  - reflexivity.
Defined.

(** X17: [openWindow] on an id that is already open opens no second window
    and keeps the open window's own title, position, size and other members,
    whatever the argument holds for them; only focus, z-index and
    [isMinimized] change. *)
Theorem opening_an_open_window_ignores_the_argument (Rest : Type) (m : Manager Rest)
    (window : NewWindow Rest) :
  In (new_id window) (map id (windows m)) ->
  map particulars (windows (openWindow window m)) = map particulars (windows m) /\
  length (windows (openWindow window m)) = length (windows m).
Proof.
  intros Hin. destruct (openWindow_present window m Hin) as (restoring & -> & _).
  split; [|apply length_map].
  rewrite map_map. apply map_ext. intros w. unfold raised, particulars.
  destruct (id w =? new_id window), restoring; reflexivity.
Qed.

Lemma opening_an_open_window_ignores_the_argument_witness :
  let m := after [Open notes; Minimize "notes"%string] in
  let again := {| new_id := "notes"; new_title := "Another title"; new_x := 0; new_y := 0;
                  new_width := 200; new_height := 100;
                  new_isMinimized := true; new_isMaximized := true; new_rest := tt |} in
  In (new_id again) (map id (windows m)) /\
  map title (windows (openWindow again m)) = ["Notes"]%string /\
  map particulars (windows (openWindow again m)) = map particulars (windows m) /\
  length (windows (openWindow again m)) = length (windows m).
Proof.
  cbv zeta. split; [simpl; auto|]. split; [reflexivity|].
  apply (@opening_an_open_window_ignores_the_argument unit
           (after [Open notes; Minimize "notes"%string])
           {| new_id := "notes"; new_title := "Another title"; new_x := 0; new_y := 0;
              new_width := 200; new_height := 100;
              new_isMinimized := true; new_isMaximized := true; new_rest := tt |}).
  simpl. auto.
Defined.

(** X18: moving and resizing touch the geometry only: they leave every
    window's focus, z-index, minimized and maximized state, [topZIndex] and
    the breadcrumbs as they were, and a move and a resize give the same state
    in either order. *)
Theorem geometry_updates_touch_geometry_only (Rest : Type) (m : Manager Rest)
    (target other : string) (px py sw sh : float) :
  map standing (windows (updateWindowPosition target px py m)) = map standing (windows m) /\
  map standing (windows (updateWindowSize target sw sh m)) = map standing (windows m) /\
  topZIndex (updateWindowPosition target px py m) = topZIndex m /\
  log (updateWindowSize target sw sh m) = log m /\
  updateWindowPosition target px py (updateWindowSize other sw sh m)
    = updateWindowSize other sw sh (updateWindowPosition target px py m).
Proof.
  unfold updateWindowPosition, updateWindowSize. cbn [windows topZIndex log].
  repeat split.
  - rewrite map_map. apply map_ext. intros w. destruct (id w =? target); reflexivity.
  - rewrite map_map. apply map_ext. intros w. destruct (id w =? target); reflexivity.
  - f_equal. rewrite !map_map. apply map_ext. intros w.
    destruct (id w =? target) eqn:Ht, (id w =? other) eqn:Ho;
      cbn [id with_position with_size]; rewrite ?Ht, ?Ho; reflexivity.
Qed.

(** X19: [focusWindow] does not restore: it leaves [isMinimized] of every
    window as it was, so a minimized window that is focused stays minimized,
    while [restoreWindow] clears it for the window it names and
    [minimizeWindow] sets it and takes the focus away. *)
Theorem focusing_does_not_restore (Rest : Type) (m : Manager Rest) (target : string) :
  map isMinimized (windows (focusWindow target m)) = map isMinimized (windows m) /\
  (forall w, In w (windows (restoreWindow target m)) -> id w = target ->
             isMinimized w = false) /\
  (forall w, In w (windows (minimizeWindow target m)) -> id w = target ->
             isMinimized w = true /\ isFocused w = false).
Proof.
  split; [|split].
  - unfold focusWindow. cbn [windows]. rewrite map_map. apply map_ext.
    intros w. destruct (id w =? target); reflexivity.
  - intros w' Hin Hid. unfold restoreWindow in Hin. cbn [windows] in Hin.
    apply in_map_iff in Hin. destruct Hin as (w & <- & _).
    destruct (String.eqb_spec (id w) target) as [Heq|Hne]; [reflexivity|].
    destruct Hne. exact Hid.
  - intros w' Hin Hid. unfold minimizeWindow in Hin. cbn [windows] in Hin.
    apply in_map_iff in Hin. destruct Hin as (w & <- & _).
    destruct (String.eqb_spec (id w) target) as [Heq|Hne]; [split; reflexivity|].
    destruct Hne. exact Hid.
Qed.

(** X20: focusing the same window twice records at most one breadcrumb, the
    second call finding the window focused, but advances [topZIndex] twice;
    the windows are those of a single call made one z-index higher. *)
Theorem focusing_twice (Rest : Type) (m : Manager Rest) (target : string) :
  log (focusWindow target (focusWindow target m)) = log (focusWindow target m) /\
  topZIndex (focusWindow target (focusWindow target m)) = topZIndex m + 2 /\
  windows (focusWindow target (focusWindow target m))
    = map (raised false target (topZIndex m + 2)) (windows m).
Proof.
  split; [|split].
  - unfold focusWindow at 1. cbv zeta. cbn [log].
    rewrite focusWindow_windows, find_window_map by apply raised_id.
    destruct (find_window target (windows m)) as [w|] eqn:Hfind; [|reflexivity].
    apply find_window_some in Hfind. destruct Hfind as [_ Hid].
    cbn [option_map]. rewrite raised_focus, Hid, String.eqb_refl. reflexivity.
  - unfold focusWindow. cbn [topZIndex]. lia.
  - rewrite !focusWindow_windows. cbn [focusWindow topZIndex].
    rewrite map_map. replace (topZIndex m + 1 + 1) with (topZIndex m + 2) by lia.
    apply map_ext. intros w. unfold raised. cbn [id with_zIndex with_isFocused].
    destruct (id w =? target) eqn:Hid; cbn [id with_zIndex with_isFocused];
      rewrite Hid; reflexivity.
Qed.

End WindowManagerFacts.

(** * Properties of the instrumentation hooks *)

Module InstrumentationFacts.
Import Instrumentation.

Lemma delete_delete key (obj : Obj) : delete key (delete key obj) = delete key obj.
Proof.
  unfold delete. induction obj as [|member obj IH]; [reflexivity|].
  simpl. destruct (negb (fst member =? key)) eqn:H; simpl; rewrite ?H, IH; reflexivity.
Qed.

Lemma delete_comm k1 k2 (obj : Obj) : delete k1 (delete k2 obj) = delete k2 (delete k1 obj).
Proof.
  unfold delete. induction obj as [|member obj IH]; [reflexivity|].
  simpl. destruct (negb (fst member =? k2)) eqn:H2, (negb (fst member =? k1)) eqn:H1;
    simpl; rewrite ?H1, ?H2, ?IH; reflexivity.
Qed.

Lemma delete_In key (obj : Obj) k v :
  In (k, v) (delete key obj) <-> In (k, v) obj /\ k <> key.
Proof.
  unfold delete. rewrite filter_In. simpl.
  destruct (String.eqb_spec k key); simpl; intuition congruence.
Qed.

Section Facts.
Variable toLowerCase : string -> string.

Lemma redact_headers_again (headers : Obj) :
  redact_headers (redact_headers headers) = redact_headers headers.
Proof.
  unfold redact_headers.
  rewrite (delete_comm "authorization" "x-api-key" (delete "authorization" headers)).
  rewrite (delete_delete "authorization"), (delete_delete "x-api-key"). reflexivity.
Qed.

Lemma redact_env_again (env : Obj) :
  redact_env toLowerCase (redact_env toLowerCase env) = redact_env toLowerCase env.
Proof.
  unfold redact_env. rewrite map_map. apply map_ext. intros [k v]. simpl.
  destruct (sensitive toLowerCase k) eqn:Hs; simpl; rewrite Hs; reflexivity.
Qed.

Lemma redact_env_keys (env : Obj) : map fst (redact_env toLowerCase env) = map fst env.
Proof.
  unfold redact_env. rewrite map_map. apply map_ext. intros [k v]. simpl.
  destruct (sensitive toLowerCase k); reflexivity.
Qed.

End Facts.

(** X21: the [nodejs] hook is idempotent, and it removes or overwrites
    members without ever adding or renaming one: the environment keeps its
    keys, in their order, and the headers that remain are headers that were
    there. *)
Theorem redaction_is_idempotent (Other : Type) (toLowerCase : string -> string)
    (event : Event Other) :
  beforeSend_nodejs toLowerCase (beforeSend_nodejs toLowerCase event)
    = beforeSend_nodejs toLowerCase event /\
  option_map (map fst) (runtime_env (beforeSend_nodejs toLowerCase event))
    = option_map (map fst) (runtime_env event) /\
  (forall headers, request_headers event = Some headers ->
     exists kept, request_headers (beforeSend_nodejs toLowerCase event) = Some kept /\
                  incl kept headers).
Proof.
  split; [|split].
  - unfold beforeSend_nodejs. cbn [request_headers context_headers runtime_env other].
    f_equal.
    + destruct (request_headers event); simpl; [rewrite redact_headers_again|]; reflexivity.
    + destruct (context_headers event); simpl; [rewrite redact_headers_again|]; reflexivity.
    + destruct (runtime_env event); simpl; [rewrite redact_env_again|]; reflexivity.
  - unfold beforeSend_nodejs. cbn [runtime_env].
    destruct (runtime_env event); simpl; [rewrite redact_env_keys|]; reflexivity.
  - intros headers Hh. unfold beforeSend_nodejs. cbn [request_headers]. rewrite Hh.
    eexists. split; [reflexivity|]. unfold redact_headers, delete.
    intros member Hin. apply filter_In in Hin. destruct Hin as [Hin _].
    apply filter_In in Hin. apply Hin.
Qed.

(** X22: after either hook no header is named [authorization] or
    [x-api-key], in the request or under the contexts, and every header with
    another name is kept with its value.  The comparison is exact: a header
    written [Authorization] is another name and is kept. *)
Theorem named_headers_are_removed (Other : Type) (toLowerCase : string -> string)
    (event : Event Other) :
  (forall headers, request_headers event = Some headers ->
     exists kept,
       request_headers (beforeSend_nodejs toLowerCase event) = Some kept /\
       request_headers (beforeSend_edge event) = Some kept /\
       forall k v, In (k, v) kept <->
                   In (k, v) headers /\ k <> "authorization"%string /\ k <> "x-api-key"%string) /\
  (forall headers, context_headers event = Some headers ->
     exists kept,
       context_headers (beforeSend_nodejs toLowerCase event) = Some kept /\
       context_headers (beforeSend_edge event) = Some kept /\
       forall k v, In (k, v) kept <->
                   In (k, v) headers /\ k <> "authorization"%string /\ k <> "x-api-key"%string).
Proof.
  split; intros headers Hh; exists (redact_headers headers);
    unfold beforeSend_nodejs, beforeSend_edge; cbn [request_headers context_headers];
    rewrite Hh; (split; [reflexivity|]); (split; [reflexivity|]);
    intros k v; unfold redact_headers; rewrite !delete_In; tauto.
Qed.

Lemma named_headers_are_removed_witness :
  let headers := [("Authorization", JStr "Bearer one"); ("authorization", JStr "Bearer two");
                  ("accept", JStr "text/event-stream")]%string in
  let event := {| request_headers := Some headers; context_headers := None;
                  runtime_env := None; other := tt |} in
  request_headers event = Some headers /\
  request_headers (beforeSend_nodejs lower_ascii event)
    = Some [("Authorization", JStr "Bearer one"); ("accept", JStr "text/event-stream")]%string /\
  exists kept,
    request_headers (beforeSend_nodejs lower_ascii event) = Some kept /\
    request_headers (beforeSend_edge event) = Some kept /\
    forall k v, In (k, v) kept <->
                In (k, v) headers /\ k <> "authorization"%string /\ k <> "x-api-key"%string.
Proof.
  cbv zeta. split; [reflexivity|]. split; [reflexivity|].
  apply (proj1 (@named_headers_are_removed unit lower_ascii
           {| request_headers := Some [("Authorization", JStr "Bearer one");
                                       ("authorization", JStr "Bearer two");
                                       ("accept", JStr "text/event-stream")]%string;
              context_headers := None; runtime_env := None; other := tt |})).
  reflexivity.
Defined.



End InstrumentationFacts.
